(** * Pose_3DEditor: keypoint decoding, normalisation and temporal smoothing

    A shallow embedding of the geometric core of the server:
    - [server/processing/onnx_vitpose.py]: box -> centre/scale, the affine
      crop transform, heat-map arg-max and sub-pixel refinement;
    - [server/main.py] and [server/processing/exporter.py]: the unit-space
      normaliser and its pixel-space inverse;
    - [server/processing/smooth.py]: gap filling and the two temporal filters.

    Numbers.  Finite floating-point values are represented by the rational
    they denote and the arithmetic is the exact one: rounding of [float32]
    and [float64] results is not part of the model, so an equation proved
    here holds in the program up to that rounding.  The one place where the
    last bit decides the result is the round trip through the normaliser,
    whose pixel is produced by [round]: there every [float64] operation is
    followed by rounding to the nearest [float64] ([Float64],
    [NormalizerFloat]).  Values that are not finite (NaN, infinities) only
    occur in the smoother, where the program does nothing with them except
    testing [isfinite]; there they are kept as separate constructors of
    [fval]. *)

From Stdlib Require Import QArith Qround Qabs Qfield Qpower ZArith Lia Lqa List.
From stdpp Require Import gmap strings list pretty.

Local Open Scope Q_scope.

(** ** Python results *)

Inductive exn : Set :=
| IndexError
| ValueError
| ZeroDivisionError.

Inductive result (A : Type) : Type :=
| Ok (a : A)
| Raise (e : exn).

Arguments Ok {A} a.
Arguments Raise {A} e.

Definition bind {A B : Type} (r : result A) (f : A -> result B) : result B :=
  match r with
  | Ok a => f a
  | Raise e => Raise e
  end.

Notation "'try!' x := c 'in' k" := (bind c (fun x => k))
  (at level 10, x name, c at level 100, k at level 200,
   format "'[' 'try!'  x  :=  c  'in' ']' '//' k").

(** A loop whose body may raise. *)
Fixpoint foldM {A B : Type} (f : A -> B -> result A) (l : list B) (a : A)
    : result A :=
  match l with
  | [] => Ok a
  | b :: l' => bind (f a b) (foldM f l')
  end.

(** ** Comparisons and conversions on numbers *)

Definition vec2 : Type := (Q * Q)%type.

(** [a < b] as Python evaluates it on finite numbers. *)
Definition Qltb (a b : Q) : bool := negb (Qle_bool b a).

(** [int(q)]: truncation towards zero. *)
Definition py_int (q : Q) : Z := Z.quot (Qnum q) (Zpos (Qden q)).

(** [np.sign]. *)
Definition np_sign (q : Q) : Q := inject_Z (Z.sgn (Qnum q)).

(** [np.maximum] on scalars. *)
Definition np_maximum (a b : Q) : Q := if Qltb a b then b else a.

Definition vadd (a b : vec2) : vec2 := (fst a + fst b, snd a + snd b).
Definition vsub (a b : vec2) : vec2 := (fst a - fst b, snd a - snd b).
Definition vmul (a b : vec2) : vec2 := (fst a * fst b, snd a * snd b).

(** Component-wise equality of the denoted numbers. *)
Definition veq (a b : vec2) : Prop := fst a == fst b /\ snd a == snd b.

(** ** server/processing/onnx_vitpose.py *)

Module OnnxVitpose.

(** Width and height of the network input. *)
Definition POSE_INPUT_SIZE : vec2 := (192, 256).
Definition PIXEL_STD : Q := 200.
Definition SCALE_FACTOR : Q := 5 # 4.

(** The two literals of [_box_to_center_scale]: [1e-6] and [1e-3]. *)
Definition box_eps : Q := 1 # 1000000.
Definition scale_floor : Q := 1 # 1000.

(** [x, y, w, h = box.tolist()] raises [ValueError] unless the box has
    four entries. *)
Definition _box_to_center_scale (box : list Q) : result (vec2 * vec2) :=
  match box with
  | [x; y; w; h] =>
      if Qltb w box_eps || Qltb h box_eps then Ok ((0, 0), (1, 1))
      else
        let center := (x + w * (1 # 2), y + h * (1 # 2)) in
        let aspect_ratio := fst POSE_INPUT_SIZE / snd POSE_INPUT_SIZE in
        let '(w, h) :=
          if Qltb (aspect_ratio * h) w then (w, w / aspect_ratio)
          else if Qltb w (aspect_ratio * h) then (h * aspect_ratio, h)
          else (w, h) in
        let scale := (w / PIXEL_STD, h / PIXEL_STD) in
        let scale := (np_maximum (fst scale) scale_floor,
                      np_maximum (snd scale) scale_floor) in
        let scale := (fst scale * SCALE_FACTOR, snd scale * SCALE_FACTOR) in
        Ok (center, scale)
  | _ => Raise ValueError
  end.

(** [_get_dir] receives the angle through its sine and cosine: [sincos] is
    the pair [(np.sin rot_rad, np.cos rot_rad)]. *)
Definition _get_dir (src_point : vec2) (sincos : Q * Q) : vec2 :=
  let '(sin, cos) := sincos in
  (fst src_point * cos - snd src_point * sin,
   fst src_point * sin + snd src_point * cos).

(** Sine and cosine of [np.pi * 0 / 180.0], the only rotation any call
    site passes. *)
Definition rot0 : Q * Q := (0, 1).

Definition _get_3rd_point (a b : vec2) : vec2 :=
  let direct := vsub a b in
  vadd b (- snd direct, fst direct).

(** A 2x3 matrix, row by row. *)
Definition mat23 : Type := ((Q * Q * Q) * (Q * Q * Q))%type.

Definition det3 (p0 p1 p2 : vec2) : Q :=
  fst p0 * (snd p1 - snd p2) - snd p0 * (fst p1 - fst p2)
  + (fst p1 * snd p2 - fst p2 * snd p1).

(** One row of the matrix: the coefficients [(a, b, c)] with
    [a * x_i + b * y_i + c = u_i] for the three points, by Cramer's rule. *)
Definition affine_row (p0 p1 p2 : vec2) (u0 u1 u2 : Q) : Q * Q * Q :=
  let d := det3 p0 p1 p2 in
  ((u0 * (snd p1 - snd p2) - snd p0 * (u1 - u2) + (u1 * snd p2 - u2 * snd p1)) / d,
   (fst p0 * (u1 - u2) - u0 * (fst p1 - fst p2) + (fst p1 * u2 - fst p2 * u1)) / d,
   (fst p0 * (snd p1 * u2 - snd p2 * u1) - snd p0 * (fst p1 * u2 - fst p2 * u1)
    + u0 * (fst p1 * snd p2 - fst p2 * snd p1)) / d).

(** [cv2.getAffineTransform] (OpenCV): the matrix of the affine map that
    sends the three points of [src] to the three points of [dst]. *)
Definition getAffineTransform (src dst : vec2 * vec2 * vec2) : mat23 :=
  let '(s0, s1, s2) := src in
  let '(d0, d1, d2) := dst in
  (affine_row s0 s1 s2 (fst d0) (fst d1) (fst d2),
   affine_row s0 s1 s2 (snd d0) (snd d1) (snd d2)).

Definition _get_affine_transform
    (center scale : vec2) (sincos : Q * Q) (output_size shift : vec2)
    (inv : bool) : mat23 :=
  let scale_tmp := (fst scale * PIXEL_STD, snd scale * PIXEL_STD) in
  let src_w := fst scale_tmp in
  let '(dst_w, dst_h) := output_size in
  let src_dir := _get_dir (0, src_w * - (1 # 2)) sincos in
  let dst_dir := (0, dst_w * - (1 # 2)) in
  let src0 := vadd center (vmul scale_tmp shift) in
  let src1 := vadd (vadd center src_dir) (vmul scale_tmp shift) in
  let dst0 := (dst_w * (1 # 2), dst_h * (1 # 2)) in
  let dst1 := vadd (dst_w * (1 # 2), dst_h * (1 # 2)) dst_dir in
  let src2 := _get_3rd_point src0 src1 in
  let dst2 := _get_3rd_point dst0 dst1 in
  if inv then getAffineTransform (dst0, dst1, dst2) (src0, src1, src2)
  else getAffineTransform (src0, src1, src2) (dst0, dst1, dst2).

Definition _affine_transform (point : vec2) (mat : mat23) : vec2 :=
  let '((a, b, c), (d, e, f)) := mat in
  (a * fst point + b * snd point + c * 1,
   d * fst point + e * snd point + f * 1).

(** A batch of heat maps: the shape [(n, k, h, w)] and the entries. *)
Record heatmaps_t : Type := {
  hm_n : nat;
  hm_k : nat;
  hm_h : nat;
  hm_w : nat;
  hm_at : nat -> nat -> nat -> nat -> Q
}.

(** Coordinates of shape [(n, k, 2)]. *)
Record coords_t : Type := {
  c_n : nat;
  c_k : nat;
  c_at : nat -> nat -> vec2
}.

(** [np.argmax] and [np.max] of a one-dimensional array: one scan from the
    left that keeps the first position of the largest value. *)
Fixpoint argmax_from (l : list Q) (i best_i : nat) (best : Q) : nat * Q :=
  match l with
  | [] => (best_i, best)
  | v :: l' =>
      if Qltb best v then argmax_from l' (S i) i v
      else argmax_from l' (S i) best_i best
  end.

Definition np_argmax (l : list Q) : nat :=
  match l with
  | [] => 0%nat
  | v :: l' => fst (argmax_from l' 1 0 v)
  end.

Definition np_max (l : list Q) : Q :=
  match l with
  | [] => 0
  | v :: l' => snd (argmax_from l' 1 0 v)
  end.

(** [heatmaps.reshape(n, k, -1)[i, j]]: the grid in row-major order. *)
Definition reshaped (heatmaps : heatmaps_t) (i j : nat) : list Q :=
  map (fun t => hm_at heatmaps i j (t / hm_w heatmaps) (t mod hm_w heatmaps))%nat
      (seq 0 (hm_h heatmaps * hm_w heatmaps)).

(** [reshape(n, k, -1)] of an array without entries and the arg-max of an
    empty grid both raise [ValueError]. *)
Definition _max_preds (heatmaps : heatmaps_t)
    : result (coords_t * (nat -> nat -> Q)) :=
  let n := hm_n heatmaps in
  let k := hm_k heatmaps in
  let h := hm_h heatmaps in
  let w := hm_w heatmaps in
  if ((n * k =? 0) || (h * w =? 0))%nat then Raise ValueError
  else
    let idx i j := np_argmax (reshaped heatmaps i j) in
    let maxvals i j := np_max (reshaped heatmaps i j) in
    let preds i j :=
      (inject_Z (Z.of_nat (idx i j mod w)), inject_Z (Z.of_nat (idx i j / w))) in
    let pred_mask i j := if Qltb 0 (maxvals i j) then 1 else 0 in
    let preds i j :=
      (fst (preds i j) * pred_mask i j, snd (preds i j) * pred_mask i j) in
    Ok ({| c_n := n; c_k := k; c_at := preds |}, maxvals).

(** [coords[i, j] = v]. *)
Definition upd (c : nat -> nat -> vec2) (i j : nat) (v : vec2)
    : nat -> nat -> vec2 :=
  fun i' j' => if ((i' =? i) && (j' =? j))%nat then v else c i' j'.

(** The body of the double loop of [_refine].  Reading [heatmaps[i, j, ..]]
    outside the batch raises [IndexError]; the row and column read are in
    range whenever the test on [px], [py] passes. *)
Definition refine_step (heatmaps : heatmaps_t) (c : nat -> nat -> vec2)
    (i j : nat) : result (nat -> nat -> vec2) :=
  let h := Z.of_nat (hm_h heatmaps) in
  let w := Z.of_nat (hm_w heatmaps) in
  let px := py_int (fst (c i j)) in
  let py := py_int (snd (c i j)) in
  if ((1 <? px) && (px <? w - 1) && (1 <? py) && (py <? h - 1))%Z then
    if ((i <? hm_n heatmaps) && (j <? hm_k heatmaps))%nat then
      let at_ (y x : Z) := hm_at heatmaps i j (Z.to_nat y) (Z.to_nat x) in
      let diff := (at_ py (px + 1)%Z - at_ py (px - 1)%Z,
                   at_ (py + 1)%Z px - at_ (py - 1)%Z px) in
      Ok (upd c i j
            (vadd (c i j)
               (np_sign (fst diff) * (1 # 4), np_sign (snd diff) * (1 # 4))))
    else Raise IndexError
  else Ok c.

Definition _refine (coords : coords_t) (heatmaps : heatmaps_t)
    : result coords_t :=
  let n := c_n coords in
  let k := c_k coords in
  bind
    (foldM (fun c i => foldM (fun c j => refine_step heatmaps c i j) (seq 0 k) c)
       (seq 0 n) (c_at coords))
    (fun c => Ok {| c_n := n; c_k := k; c_at := c |}).

(** Sample inputs: a 3x4 grid that is 1 at column 2, row 1; a 5x5 grid
    rising along x and falling along y, with the joint placed at (2, 2). *)
Definition one_hot_heatmaps : heatmaps_t :=
  {| hm_n := 1; hm_k := 1; hm_h := 3; hm_w := 4;
     hm_at := fun _ _ y x => if ((x =? 2) && (y =? 1))%nat then 1 else 0 |}.

Definition ramp_heatmaps : heatmaps_t :=
  {| hm_n := 1; hm_k := 1; hm_h := 5; hm_w := 5;
     hm_at := fun _ _ y x => inject_Z (Z.of_nat x) - inject_Z (Z.of_nat y) |}.

Definition centre_coords : coords_t :=
  {| c_n := 1; c_k := 1; c_at := fun _ _ => (2, 2) |}.

(** What one pass of the loop body does to the entry it visits. *)
Definition refined (heatmaps : heatmaps_t) (i j : nat) (v : vec2) : vec2 :=
  let h := Z.of_nat (hm_h heatmaps) in
  let w := Z.of_nat (hm_w heatmaps) in
  let px := py_int (fst v) in
  let py := py_int (snd v) in
  let at_ (y x : Z) := hm_at heatmaps i j (Z.to_nat y) (Z.to_nat x) in
  if ((1 <? px) && (px <? w - 1) && (1 <? py) && (py <? h - 1))%Z then
    (fst v + np_sign (at_ py (px + 1)%Z - at_ py (px - 1)%Z) * (1 # 4),
     snd v + np_sign (at_ (py + 1)%Z px - at_ (py - 1)%Z px) * (1 # 4))
  else v.

End OnnxVitpose.

(** ** server/main.py and server/processing/exporter.py *)

Module Normalizer.

(** [round] of Python 3: to the nearest integer, ties to the even one. *)
Definition py_round (q : Q) : Z :=
  let f := Qfloor q in
  let r := q - inject_Z f in
  if Qltb r (1 # 2) then f
  else if Qltb (1 # 2) r then (f + 1)%Z
  else if Z.even f then f else (f + 1)%Z.

(** [x / width] and [y / height] raise on a zero divisor. *)
Definition _normalize_point (x y width height : Q) : result (Q * Q) :=
  if Qeq_bool width 0 || Qeq_bool height 0 then Raise ZeroDivisionError
  else
    let nx := (x / width) * 2 - 1 in
    let ny := 1 - (y / height) * 2 in
    Ok (nx, ny).

Definition _denormalize (point : gmap string Q) (width height : Q) : Z * Z :=
  let nx := default 0 (point !! "x"%string) in
  let ny := default 0 (point !! "y"%string) in
  let x := (nx + 1) * (1 # 2) * width in
  let y := (1 - ny) * (1 # 2) * height in
  (py_round x, py_round y).

End Normalizer.

(** ** [float64] arithmetic *)

Module Float64.

(** Half the distance between 1 and the next [float64], and half the
    smallest positive [float64]. *)
Definition unit_roundoff : Q := 1 # 9007199254740992.
Definition half_min_subnormal : Q := Qpower 2 (-1075).

(** The distance between 1 and the next [float64]. *)
Definition ulp52 : Q := 1 # 4503599627370496.

(** [floor (log2 |q|)] for [q] other than 0. *)
Definition ilog2 (q : Q) : Z :=
  let e0 := (Z.log2 (Z.abs (Qnum q)) - Z.log2 (Zpos (Qden q)) - 1)%Z in
  if Qle_bool (Qpower 2 (e0 + 1)) (Qabs q) then (e0 + 1)%Z else e0.

(** The [float64] nearest to [q], ties to the even significand: 53
    significant bits above the exponent -1022, multiples of [2^-1074]
    below.  Overflow is left out: no value here comes near [2^1024]. *)
Definition round_nearest (q : Q) : Q :=
  if Qeq_bool q 0 then 0
  else
    let e := Z.max (ilog2 q) (-1022) in
    let ulp := Qpower 2 (e - 52) in
    inject_Z (Normalizer.py_round (q / ulp)) * ulp.

Definition f64_add (a b : Q) : Q := round_nearest (a + b).
Definition f64_sub (a b : Q) : Q := round_nearest (a - b).
Definition f64_mul (a b : Q) : Q := round_nearest (a * b).
Definition f64_div (a b : Q) : Q := round_nearest (a / b).

(** [q] lies within [d] of [t]. *)
Definition near (q t d : Q) : Prop := t - d <= q /\ q <= t + d.

End Float64.

(** ** The normaliser and its inverse in [float64] *)

Module NormalizerFloat.
Import Float64.

(** [_normalize_point] of [server/main.py], operation by operation. *)
Definition _normalize_point (x y width height : Q) : result (Q * Q) :=
  if Qeq_bool width 0 || Qeq_bool height 0 then Raise ZeroDivisionError
  else
    let nx := f64_sub (f64_mul (f64_div x width) 2) 1 in
    let ny := f64_sub 1 (f64_mul (f64_div y height) 2) in
    Ok (nx, ny).

(** [_denormalize] of [server/processing/exporter.py], operation by
    operation. *)
Definition _denormalize (point : gmap string Q) (width height : Q) : Z * Z :=
  let nx := default 0 (point !! "x"%string) in
  let ny := default 0 (point !! "y"%string) in
  let x := f64_mul (f64_mul (f64_add nx 1) (1 # 2)) width in
  let y := f64_mul (f64_mul (f64_sub 1 ny) (1 # 2)) height in
  (Normalizer.py_round x, Normalizer.py_round y).

(** The largest frame side considered, [2^32], and the share of the
    rounding of the six operations in the error of a pixel, [2^-17]. *)
Definition max_frame_size : Q := 4294967296.
Definition round_trip_tolerance : Q := 1 # 131072.

End NormalizerFloat.

(** ** server/processing/smooth.py *)

Module Smooth.

(** A [float32] entry of the working array. *)
Inductive fval : Type :=
| Fin (q : Q)
| PInf
| NInf
| NaN.

Definition isfinite (v : fval) : bool :=
  match v with
  | Fin _ => true
  | _ => false
  end.

(** [math.pi], the double nearest to pi. *)
Definition math_pi : Q := 884279719003555 # 281474976710656.

(** [np.interp x xp fp] for increasing sample points [xp]: scan for the
    segment that holds [x]; left of the first point the result is the first
    value, from the last point on it is the last value. *)
Fixpoint interp_from (x x0 f0 : Q) (pts : list (Q * Q)) : Q :=
  match pts with
  | [] => f0
  | (x1, f1) :: rest =>
      if Qltb x x1 then (f1 - f0) / (x1 - x0) * (x - x0) + f0
      else interp_from x x1 f1 rest
  end.

Definition np_interp (x : Q) (pts : list (Q * Q)) : Q :=
  match pts with
  | [] => 0
  | (x0, f0) :: rest => if Qltb x x0 then f0 else interp_from x x0 f0 rest
  end.

(** [valid] and [arr[valid]] side by side: the positions that hold a finite
    value, from position [i] on, each with its value. *)
Fixpoint valid_from (i : nat) (arr : list fval) : list (Q * Q) :=
  match arr with
  | [] => []
  | Fin q :: arr' => (inject_Z (Z.of_nat i), q) :: valid_from (S i) arr'
  | _ :: arr' => valid_from (S i) arr'
  end.

(** [arr[mask] = np.interp(np.where(mask)[0], valid, arr[valid])], from
    position [i] on. *)
Fixpoint fill_from (i : nat) (pts : list (Q * Q)) (arr : list fval) : list Q :=
  match arr with
  | [] => []
  | Fin q :: arr' => q :: fill_from (S i) pts arr'
  | _ :: arr' =>
      np_interp (inject_Z (Z.of_nat i)) pts :: fill_from (S i) pts arr'
  end.

(** Every entry of the result is finite (no masked entry is left in the
    first branch, zeros in the second, finite or interpolated entries in
    the third), so the result is given by the numbers themselves. *)
Definition _interp_nans (values : list fval) : list Q :=
  let arr := values in
  let mask := map (fun v => negb (isfinite v)) arr in
  if negb (existsb (fun b => b) mask) then
    map (fun v => match v with Fin q => q | _ => 0 end) arr
  else
    let valid := valid_from 0 arr in
    if (length valid =? 0)%nat then map (fun _ => 0) arr
    else fill_from 0 valid arr.

Definition _lowpass (prev value alpha : Q) : Q :=
  alpha * value + (1 - alpha) * prev.

Definition _alpha (cutoff dt : Q) : Q :=
  let tau := 1 / (2 * math_pi * cutoff) in
  1 / (1 + tau / dt).

(** The built-in [max(a, b)]: [b] when [b > a], else [a]. *)
Definition py_max (a b : Q) : Q := if Qltb a b then b else a.

Section one_euro.
Variables (dt min_cutoff beta d_cutoff : Q).

(** The loop [for i in range(1, len(series))], producing [out[1:]]. *)
Fixpoint one_euro_loop (rest : list Q) (prev dx_prev : Q) : list Q :=
  match rest with
  | [] => []
  | value :: rest' =>
      let dx := (value - prev) / dt in
      let alpha_d := _alpha d_cutoff dt in
      let dx_hat := _lowpass dx_prev dx alpha_d in
      let cutoff := min_cutoff + beta * Qabs dx_hat in
      let alpha_val := _alpha cutoff dt in
      let prev := _lowpass prev value alpha_val in
      prev :: one_euro_loop rest' prev dx_hat
  end.
End one_euro.

(** [series[0]] raises [IndexError] on an empty series. *)
Definition _one_euro (series : list Q) (fps strength : Q) : result (list Q) :=
let dt := 1 / py_max (1 # 1000) fps in
let min_cutoff := np_interp strength [(0, 5 # 2); (1, 2 # 5)] in
let beta := np_interp strength [(0, 0); (1, 1)] in
let d_cutoff := 1 in
match series with
| [] => Raise IndexError
| prev :: rest =>
    Ok (prev :: one_euro_loop dt min_cutoff beta d_cutoff rest prev 0)
end.

Section savgol.
(** [scipy.signal.savgol_filter series window_length polyorder]. *)
Variable savgol_filter : list Q -> Z -> Z -> list Q.

Definition _savgol (series : list Q) (strength : Q) : list Q :=
  let len := Z.of_nat (length series) in
  if (len <? 3)%Z then series
  else
    let window := py_int (3 + strength * 18) in
    let window := if (window mod 2 =? 0)%Z then (window + 1)%Z else window in
    let window :=
      if (len <=? window)%Z
      then (if (len mod 2 =? 0)%Z then len - 1 else len)%Z
      else window in
    let window := if (window <? 3)%Z then 3%Z else window in
    let poly := 2%Z in
    savgol_filter series window poly.

(** One entry [data[fi, ji]]: x, y and confidence. *)
Definition cell : Type := (fval * fval * fval)%type.
Definition nan_cell : cell := (NaN, NaN, NaN).

Definition get_axis (axis : nat) (c : cell) : fval :=
  match axis with
  | 0%nat => fst (fst c)
  | 1%nat => snd (fst c)
  | _ => snd c
  end.

Definition set_axis (axis : nat) (v : fval) (c : cell) : cell :=
  match axis with
  | 0%nat => (v, snd (fst c), snd c)
  | 1%nat => (fst (fst c), v, snd c)
  | _ => (fst (fst c), snd (fst c), v)
  end.

(** [data[:, ji, axis]]. *)
Definition column (data : list (list cell)) (ji axis : nat) : list fval :=
  map (fun row => get_axis axis (nth ji row nan_cell)) data.

(** [data[:, ji, axis] = smoothed]: a right-hand side of another length
    is broadcast when it has one entry and refused otherwise. *)
Definition set_column (data : list (list cell)) (ji axis : nat)
    (smoothed : list Q) : result (list (list cell)) :=
  let put row v := <[ji := set_axis axis (Fin v) (nth ji row nan_cell)]> row in
  if (length smoothed =? length data)%nat then
    Ok (zip_with put data smoothed)
  else
    match smoothed with
    | [v] => Ok (map (fun row => put row v) data)
    | _ => Raise ValueError
    end.

(** The body of the loop over [ji] and [axis]. *)
Definition smooth_column (fps : Q) (mode : string) (strength : Q)
    (data : list (list cell)) (ji axis : nat) : result (list (list cell)) :=
  let column := column data ji axis in
  let filled := _interp_nans column in
  bind (if bool_decide (mode = "savgol"%string)
        then Ok (_savgol filled strength)
        else _one_euro filled fps strength)
       (fun smoothed => set_column data ji axis smoothed).

(** The body of the loop that builds one [frame_dict]. *)
Definition emit (row : list cell) (frame_dict : gmap string (Q * Q * Q))
    (ji : nat) (jid : string) : gmap string (Q * Q * Q) :=
  match nth ji row nan_cell with
  | (Fin x, Fin y, c) =>
      <[jid := (x, y, match c with Fin c => c | _ => 0 end)]> frame_dict
  | _ => frame_dict
  end.

Definition enumerate {A : Type} (l : list A) : list (nat * A) :=
  combine (seq 0 (length l)) l.

Definition smooth_sequence (sequence : list (gmap string cell))
    (joint_ids : list string) (fps : Q) (mode : string) (strength : Q)
    : result (list (gmap string (Q * Q * Q))) :=
  let joints := joint_ids in
  let data :=
    map (fun frame =>
           map (fun jid => default nan_cell (frame !! jid)) joints)
        sequence in
  bind
    (foldM (fun data ji =>
              foldM (fun data axis =>
                       smooth_column fps mode strength data ji axis)
                    (seq 0 2) data)
           (seq 0 (length joints)) data)
    (fun data =>
       Ok (map (fun row =>
                  fold_left (fun frame_dict '(ji, jid) =>
                               emit row frame_dict ji jid)
                            (enumerate joints) ∅)
               data)).
End savgol.

(** [savgol_filter] at [window_length = 3], [polyorder = 2]: the fitted
    parabola passes through the three samples of every window, so the
    filtered series is the series itself. *)
Definition savgol_filter_w3 (series : list Q) (window_length polyorder : Z)
    : list Q := series.

(** How the loop of [smooth_sequence] changes one row of [data]: an
    assignment to column [(ji, axis)] stores a finite number there. *)
Definition row_step (ji axis : nat) (row row' : list cell) : Prop :=
  exists v, row' = <[ji := set_axis axis (Fin v) (nth ji row nan_cell)]> row.

Definition both_axes (ji : nat) (row row' : list cell) : Prop :=
  exists r1, row_step ji 0 row r1 /\ row_step ji 1 r1 row'.

Fixpoint joints_chain (jis : list nat) (row row' : list cell) : Prop :=
  match jis with
  | [] => row' = row
  | ji :: rest => exists r1, both_axes ji row r1 /\ joints_chain rest r1 row'
  end.

Definition finite_at (row : list cell) (ji axis : nat) : Prop :=
  isfinite (get_axis axis (nth ji row nan_cell)) = true.



End Smooth.

(** ** server/processing/onnx_vitpose.py: boxes and the decoding pipeline *)

Module OnnxDecode.
Import OnnxVitpose.

(** A loop that collects one result per element and may raise. *)
Fixpoint mapM {A B : Type} (f : A -> result B) (l : list A) : result (list B) :=
  match l with
  | [] => Ok []
  | a :: l' => bind (f a) (fun b => bind (mapM f l') (fun bs => Ok (b :: bs)))
  end.

(** [_box_xywh]: one row [[x0, y0, x1, y1]] per box; columns 2 and 3 become
    width and height.  A row without column 2 or 3 cannot be indexed. *)
Definition _box_xywh (box_tensor : list (list Q)) : result (list (list Q)) :=
  mapM (fun row =>
          match row with
          | x0 :: y0 :: x1 :: y1 :: rest =>
              Ok (x0 :: y0 :: (x1 - x0) :: (y1 - y0) :: rest)
          | _ => Raise IndexError
          end)
       box_tensor.

(** [centers[i]] and [scales[i]] index Python lists: [IndexError] past the
    end.  The matrix is built before the loop over the joints. *)
Definition _transform_preds (coords : coords_t) (centers scales : list vec2)
    (output_size : vec2) : result coords_t :=
  let n := c_n coords in
  let k := c_k coords in
  bind
    (foldM (fun c i =>
              match centers !! i with
              | None => Raise IndexError
              | Some center =>
                  match scales !! i with
                  | None => Raise IndexError
                  | Some scale =>
                      let trans :=
                        _get_affine_transform center scale rot0 output_size
                          (0, 0) true in
                      Ok (fold_left
                            (fun c j => upd c i j (_affine_transform (c i j) trans))
                            (seq 0 k) c)
                  end
              end)
           (seq 0 n) (c_at coords))
    (fun c => Ok {| c_n := n; c_k := k; c_at := c |}).

(** What [_transform_preds] does to one entry of sample [i]. *)
Definition inverse_at (centers scales : list vec2) (output_size : vec2)
    (i : nat) (v : vec2) : vec2 :=
  match centers !! i, scales !! i with
  | Some center, Some scale =>
      _affine_transform v
        (_get_affine_transform center scale rot0 output_size (0, 0) true)
  | _, _ => v
  end.

(** [OnnxViTPose._decode_poses]. *)
Definition _decode_poses (heatmaps : heatmaps_t) (centers scales : list vec2)
    : result (coords_t * (nat -> nat -> Q)) :=
  bind (_max_preds heatmaps) (fun '(coords, maxvals) =>
  bind (_refine coords heatmaps) (fun coords =>
  let heatmap_h := hm_h heatmaps in
  let heatmap_w := hm_w heatmaps in
  let scale_x :=
    fst POSE_INPUT_SIZE / inject_Z (Z.max 1 (Z.of_nat heatmap_w)) in
  let scale_y :=
    snd POSE_INPUT_SIZE / inject_Z (Z.max 1 (Z.of_nat heatmap_h)) in
  let coords :=
    {| c_n := c_n coords; c_k := c_k coords;
       c_at := fun i j => (fst (c_at coords i j) * scale_x,
                           snd (c_at coords i j) * scale_y) |} in
  bind (_transform_preds coords centers scales POSE_INPUT_SIZE) (fun coords =>
  let conf := maxvals in
  Ok (coords, conf)))).

End OnnxDecode.

(** ** server/processing/exporter.py: colours *)

Module Exporter.

Definition COLOR_GRADIENT : list (Z * Z * Z) :=
  [(99, 102, 241); (129, 140, 248); (248, 113, 113); (249, 168, 212);
   (248, 250, 109)]%Z.

(** The built-in [min(a, b)]: [b] when [b < a], else [a]. *)
Definition py_min (a b : Q) : Q := if Qltb b a then b else a.

(** One channel: [int(c1 + (c2 - c1) * alpha)]. *)
Definition blend (c1 c2 : Z) (alpha : Q) : Z :=
  py_int (inject_Z c1 + (inject_Z c2 - inject_Z c1) * alpha).

(** [lo] and [hi] index the gradient; they are never negative because [t]
    is clamped first. *)
Definition _spectral_color (t : Q) : Z * Z * Z :=
  let t := py_min (Smooth.py_max t 0) 1 in
  let last := (Z.of_nat (length COLOR_GRADIENT) - 1)%Z in
  let idx := t * inject_Z last in
  let lo := Qfloor idx in
  let hi := Z.min last (lo + 1) in
  let alpha := idx - inject_Z lo in
  let c1 := nth (Z.to_nat lo) COLOR_GRADIENT (0, 0, 0)%Z in
  let c2 := nth (Z.to_nat hi) COLOR_GRADIENT (0, 0, 0)%Z in
  let r := blend (fst (fst c1)) (fst (fst c2)) alpha in
  let g := blend (snd (fst c1)) (snd (fst c2)) alpha in
  let b := blend (snd c1) (snd c2) alpha in
  (r, g, b).

End Exporter.

(** ** server/processing/smooth.py: the track of one joint *)

Module SmoothTracks.
Import Smooth.




End SmoothTracks.

(** ** server/processing/lift3d.py *)

Module Lift3d.

(** [_IdentityLifter.__call__]: a joint is a triple (x, y, c) on the way
    in and a quadruple (x, y, z, c) on the way out. *)
Definition _IdentityLifter_call (sequence : list (gmap string (Q * Q * Q)))
    (joint_ids : list string) : list (gmap string (Q * Q * Q * Q)) :=
  let joint_list := joint_ids in
  map (fun frame =>
         fold_left (fun lifted jid =>
                      let '(x, y, c) := default (0, 0, 0) (frame !! jid) in
                      <[jid := (x, y, 0, c)]> lifted)
                   joint_list ∅)
      sequence.

End Lift3d.

(** ** server/processing/decoder.py *)

Module Decoder.

(** Truth value of an optional integer: [None] and 0 are false. *)
Definition truthy (o : option Z) : bool :=
  match o with
  | Some z => negb (z =? 0)%Z
  | None => false
  end.

(** [width / float(src_w)] and [height / float(src_h)] raise on a zero
    divisor. *)
Definition _coerce_resize_dims (src_w src_h : Z) (width height : option Z)
    : result (Z * Z) :=
  let w := default 0%Z width in
  let h := default 0%Z height in
  if truthy width && truthy height then Ok (w, h)
  else if truthy width && negb (truthy height) then
    if (src_w =? 0)%Z then Raise ZeroDivisionError
    else
      let scale := inject_Z w / inject_Z src_w in
      Ok (w, Z.max 1 (Normalizer.py_round (inject_Z src_h * scale)))
  else if truthy height && negb (truthy width) then
    if (src_h =? 0)%Z then Raise ZeroDivisionError
    else
      let scale := inject_Z h / inject_Z src_h in
      Ok (Z.max 1 (Normalizer.py_round (inject_Z src_w * scale)), h)
  else Ok (src_w, src_h).

(** Truth value of an optional rate: [None] and 0 are false. *)
Definition truthy_rate (o : option Q) : bool :=
  match o with
  | Some q => negb (Qeq_bool q 0)
  | None => false
  end.

(** [o or d]. *)
Definition or_else (o : option Q) (d : Q) : Q :=
  if truthy_rate o then default d o else d.

(** [src_fps]: the rate the container reports, replaced by
    [float(target_fps or 24)] when it is not positive. *)
Definition source_fps (cap_fps : Q) (target_fps : option Q) : Q :=
  if Qle_bool cap_fps 0 then or_else target_fps 24 else cap_fps.

(** [fps = float(target_fps or src_fps); fps = fps if fps > 0 else src_fps]. *)
Definition output_fps (src_fps : Q) (target_fps : option Q) : Q :=
  let fps := or_else target_fps src_fps in
  if Qltb 0 fps then fps else src_fps.

(** [step = max(1.0, src_fps / fps) if fps else 1.0]. *)
Definition frame_step (src_fps fps : Q) : Q :=
  if Qeq_bool fps 0 then 1 else Smooth.py_max 1 (src_fps / fps).

Definition capture_eps : Q := 1 # 1000000.

(** The [while True] loop over the frames [cap.read()] delivers; [convert]
    stands for the colour conversion and the resize. *)
Fixpoint capture_loop {A B : Type} (convert : A -> B) (step : Q)
    (frames : list A) (idx : Z) (next_capture : Q) : list B :=
  match frames with
  | [] => []
  | frame :: rest =>
      if Qle_bool (next_capture - capture_eps) (inject_Z (idx + 1))
      then convert frame
             :: capture_loop convert step rest (idx + 1) (next_capture + step)
      else capture_loop convert step rest (idx + 1) next_capture
  end.

(** The frames kept by [read_video_frames] and the rate and duration of its
    metadata; [None] stands for [VideoDecodeError("No frames decoded from
    video")]. *)
Definition read_video_frames {A B : Type} (convert : A -> B) (cap_fps : Q)
    (frames : list A) (target_fps : option Q) : option (list B * Q * Q) :=
  let src_fps := source_fps cap_fps target_fps in
  let fps := output_fps src_fps target_fps in
  let step := frame_step src_fps fps in
  match capture_loop convert step frames 0 0 with
  | [] => None
  | kept =>
      let duration :=
        if Qeq_bool fps 0 then 0 else inject_Z (Z.of_nat (length kept)) / fps in
      Some (kept, fps, duration)
  end.

End Decoder.

(** ** server/processing/mappings.py *)

Module Mappings.

Definition MAP_VITPOSE_17_TO_EDITOR : gmap Z string :=
  list_to_map
    [(0, "nose"); (1, "leftEye"); (2, "rightEye"); (3, "leftEar");
     (4, "rightEar"); (5, "leftShoulder"); (6, "rightShoulder");
     (7, "leftElbow"); (8, "rightElbow"); (9, "leftWrist");
     (10, "rightWrist"); (11, "leftHip"); (12, "rightHip");
     (13, "leftKnee"); (14, "rightKnee"); (15, "leftAnkle");
     (16, "rightAnkle")]%Z.

Definition MAP_DWPOSE_25_TO_EDITOR : gmap Z string :=
  list_to_map
    [(0, "nose"); (1, "neck"); (2, "rightShoulder"); (3, "rightElbow");
     (4, "rightWrist"); (5, "leftShoulder"); (6, "leftElbow");
     (7, "leftWrist"); (8, "midHip"); (9, "rightHip"); (10, "rightKnee");
     (11, "rightAnkle"); (12, "leftHip"); (13, "leftKnee");
     (14, "leftAnkle"); (15, "rightEye"); (16, "leftEye"); (17, "rightEar");
     (18, "leftEar"); (19, "leftBigToe"); (20, "leftSmallToe");
     (21, "leftHeel"); (22, "rightBigToe"); (23, "rightSmallToe");
     (24, "rightHeel")]%Z.

(** [str] of an integer. *)
Definition py_str (n : Z) : string := pretty n.

Definition FINGERS : list string :=
  ["Thumb"; "Index"; "Middle"; "Ring"; "Pinky"].

(** The two loops of [_add_hand_section] thread the mapping and [idx]. *)
Definition _add_hand_section (start : Z) (side : string) : gmap Z string :=
  let mapping : gmap Z string := {[ start := side +:+ "Palm" ]} in
  let idx := (start + 1)%Z in
  fst (fold_left
         (fun st finger =>
            fold_left
              (fun '(mapping, idx) segment =>
                 (<[idx := side +:+ finger +:+ py_str segment]> mapping,
                  (idx + 1)%Z))
              (seqZ 1 4) st)
         FINGERS (mapping, idx)).

Definition _add_face_section (start : Z) (prefix : string) (count : nat)
    : gmap Z string :=
  list_to_map
    (map (fun i => ((start + i)%Z, prefix +:+ py_str i)) (seqZ 0 (Z.of_nat count))).

(** [d.update(other)]: the entries of [other] win. *)
Definition update (d other : gmap Z string) : gmap Z string := other ∪ d.

Definition FACE_SECTIONS : list (string * nat) :=
  [("faceContour", 17); ("rightEyebrow", 5); ("leftEyebrow", 5);
   ("noseBridge", 4); ("noseLower", 5); ("rightEye", 6); ("leftEye", 6);
   ("outerLip", 12); ("innerLip", 8)]%nat.

Definition MAP_VITPOSE_WHOLEBODY_133_TO_EDITOR : gmap Z string :=
  let m := MAP_VITPOSE_17_TO_EDITOR in
  let m :=
    update m
      (list_to_map
         [(17, "leftBigToe"); (18, "leftSmallToe"); (19, "leftHeel");
          (20, "rightBigToe"); (21, "rightSmallToe"); (22, "rightHeel")]%Z) in
  let m := update m (_add_hand_section 23 "left") in
  let m := update m (_add_hand_section 44 "right") in
  fst (fold_left
         (fun '(m, face_idx) '(prefix, count) =>
            let section := _add_face_section face_idx prefix count in
            (update m section, (face_idx + Z.of_nat count)%Z))
         FACE_SECTIONS (m, 65%Z)).

End Mappings.

(* ------------------------------------------------------------------ *)
(** * Properties *)
(* ------------------------------------------------------------------ *)

(** ** Numbers *)

Lemma Qltb_lt (a b : Q) : Qltb a b = true <-> a < b.
Proof.
  unfold Qltb. rewrite negb_true_iff.
  split; intros H.
  - apply Qnot_le_lt. intros Hle. apply Qle_bool_iff in Hle. congruence.
  - destruct (Qle_bool b a) eqn:E; [|reflexivity].
    apply Qle_bool_iff in E. exfalso. exact (Qlt_not_le _ _ H E).
Qed.

Lemma Qltb_ge (a b : Q) : Qltb a b = false <-> b <= a.
Proof.
  unfold Qltb. rewrite negb_false_iff. apply Qle_bool_iff.
Qed.

Lemma Qltb_comp (a a' b b' : Q) :
  a == a' -> b == b' -> Qltb a b = Qltb a' b'.
Proof.
  intros Ha Hb. unfold Qltb. f_equal. apply Qleb_comp; assumption.
Qed.

Lemma sq_nonzero_cancel (k a : Q) : ~ k == 0 -> k * (a * a) == 0 -> a == 0.
Proof.
  intros Hk H.
  destruct (Qmult_integral _ _ H) as [H1 | H1]; [contradiction|].
  destruct (Qmult_integral _ _ H1); assumption.
Qed.


(** ** Geometry transform *)

Module OnnxVitposeFacts.
Import OnnxVitpose.

(** C5.  A box whose width or height is below [1e-6] (in particular the
    box with [w = 0] and [h = 0]) yields the sentinel: centre [(0, 0)],
    scale [(1, 1)], and no exception. *)
Theorem box_to_center_scale_degenerate (x y w h : Q) :
  w < box_eps \/ h < box_eps ->
  _box_to_center_scale [x; y; w; h] = Ok ((0, 0), (1, 1)).
Proof.
  intros Hlt. unfold _box_to_center_scale.
  destruct Hlt as [Hw | Hh].
  - apply Qltb_lt in Hw. rewrite Hw. reflexivity.
  - apply Qltb_lt in Hh. rewrite Hh. rewrite orb_true_r. reflexivity.
Qed.

Lemma box_to_center_scale_degenerate_witness :
  (0 < box_eps \/ 0 < box_eps) /\
  _box_to_center_scale [10; 20; 0; 0] = Ok ((0, 0), (1, 1)).
Proof.
  split.
  - left. reflexivity.
  - apply (box_to_center_scale_degenerate 10 20 0 0). left. reflexivity.
Defined.

(** The matrix computed for three point pairs sends each source point to
    its destination point when the source points are not collinear. *)
Lemma getAffineTransform_maps (s0 s1 s2 d0 d1 d2 : vec2) :
  ~ det3 s0 s1 s2 == 0 ->
  let m := getAffineTransform (s0, s1, s2) (d0, d1, d2) in
  veq (_affine_transform s0 m) d0 /\
  veq (_affine_transform s1 m) d1 /\
  veq (_affine_transform s2 m) d2.
Proof.
  destruct s0 as [x0 y0], s1 as [x1 y1], s2 as [x2 y2],
    d0 as [u0 v0], d1 as [u1 v1], d2 as [u2 v2].
  unfold det3, veq, _affine_transform, getAffineTransform, affine_row, det3.
  cbn [fst snd]. intros Hdet.
  repeat split; field; exact Hdet.
Qed.

(** C1 (exact arithmetic).  With rotation 0, a non-zero source width and a
    non-zero output width, mapping a point with the forward transform and
    then with the inverse transform gives the point back. *)
Theorem affine_transform_roundtrip
    (center scale output_size shift point : vec2) :
  ~ fst scale == 0 ->
  ~ fst output_size == 0 ->
  veq (_affine_transform
         (_affine_transform point
            (_get_affine_transform center scale rot0 output_size shift false))
         (_get_affine_transform center scale rot0 output_size shift true))
      point.
Proof.
  destruct center as [cx cy], scale as [sx sy], output_size as [dw dh],
    shift as [hx hy], point as [px py].
  cbn [fst snd]. intros Hs Hd.
  unfold veq, _affine_transform, _get_affine_transform, getAffineTransform,
    affine_row, det3, _get_3rd_point, _get_dir, rot0, vadd, vsub, vmul,
    PIXEL_STD.
  cbn [fst snd].
  split; field; split.
  all: intros Hz.
  all: first
    [ apply Hd; apply (sq_nonzero_cancel (-1 # 4)); [discriminate|];
      rewrite <- Hz; ring
    | apply Hs; apply (sq_nonzero_cancel (-10000)); [discriminate|];
      rewrite <- Hz; ring ].
Qed.

Lemma affine_transform_roundtrip_witness :
  veq (_affine_transform
         (_affine_transform (10, 20)
            (_get_affine_transform (100, 120) (1, 4 # 3) rot0 (192, 256)
               (0, 0) false))
         (_get_affine_transform (100, 120) (1, 4 # 3) rot0 (192, 256)
            (0, 0) true))
      (10, 20).
Proof.
  apply (affine_transform_roundtrip (100, 120) (1, 4 # 3) (192, 256) (0, 0)
           (10, 20)); cbn [fst]; intros H; discriminate H.
Defined.

(** A 96x128 box at the origin already has the 3:4 ratio: centre (48, 64),
    scale (0.6, 0.8). *)
Example box_to_center_scale_96_128 :
  exists c s,
    _box_to_center_scale [0; 0; 96; 128] = Ok (c, s) /\
    veq c (48, 64) /\ veq s (3 # 5, 4 # 5).
Proof.
  eexists _, _. split; [reflexivity|]. split; split; reflexivity.
Qed.

(** The scale of a non-degenerate box, written out: the box is widened to
    the 3:4 aspect ratio, divided by [PIXEL_STD], clamped from below at
    [1e-3] per component and multiplied by [SCALE_FACTOR]. *)
Lemma box_to_center_scale_regular (x y w h : Q) :
  box_eps <= w -> box_eps <= h ->
  exists c s,
    _box_to_center_scale [x; y; w; h] = Ok (c, s) /\
    c = (x + w * (1 # 2), y + h * (1 # 2)) /\
    exists w' h',
      w' == (3 # 4) * h' /\ w <= w' /\ h <= h' /\ (w' == w \/ h' == h) /\
      s = (np_maximum (w' / PIXEL_STD) scale_floor * SCALE_FACTOR,
           np_maximum (h' / PIXEL_STD) scale_floor * SCALE_FACTOR).
Proof.
  intros Hw Hh. unfold _box_to_center_scale.
  rewrite (proj2 (Qltb_ge _ _) Hw), (proj2 (Qltb_ge _ _) Hh).
  cbn [orb fst snd POSE_INPUT_SIZE].
  assert (Ear : forall q : Q, (192 / 256) * q == (3 # 4) * q)
    by (intros q; field).
  destruct (Qltb (192 / 256 * h) w) eqn:E1.
  - apply Qltb_lt in E1. rewrite Ear in E1.
    eexists _, _. split; [reflexivity|]. split; [reflexivity|].
    exists w, (w / (192 / 256)). cbn [fst snd].
    assert (Eh : w / (192 / 256) == (4 # 3) * w) by field.
    repeat split; try reflexivity; try (rewrite Eh; lra); try lra.
  - apply Qltb_ge in E1. rewrite Ear in E1.
    destruct (Qltb w (192 / 256 * h)) eqn:E2.
    + apply Qltb_lt in E2. rewrite Ear in E2.
      eexists _, _. split; [reflexivity|]. split; [reflexivity|].
      exists (h * (192 / 256)), h. cbn [fst snd].
      assert (Eh : h * (192 / 256) == (3 # 4) * h) by field.
      repeat split; try reflexivity; try (rewrite Eh; lra); try lra.
    + apply Qltb_ge in E2. rewrite Ear in E2.
      eexists _, _. split; [reflexivity|]. split; [reflexivity|].
      exists w, h. cbn [fst snd].
      repeat split; try reflexivity; try lra.
Qed.




(** *** Heat-map arg-max *)

Lemma argmax_from_spec (l : list Q) :
  forall (pre : list Q) (bi : nat) (b : Q),
    (bi < length pre)%nat ->
    nth bi pre 0 = b ->
    (forall t, (t < length pre)%nat -> nth t pre 0 <= b) ->
    (forall t, (t < bi)%nat -> nth t pre 0 < b) ->
    let r := argmax_from l (length pre) bi b in
    (fst r < length (pre ++ l))%nat /\
    snd r = nth (fst r) (pre ++ l) 0 /\
    (forall t, (t < length (pre ++ l))%nat -> nth t (pre ++ l) 0 <= snd r) /\
    (forall t, (t < fst r)%nat -> nth t (pre ++ l) 0 < snd r).
Proof.
  induction l as [|v l IH]; intros pre bi b Hbi Hb Hle Hlt; cbn zeta.
  - cbn [argmax_from fst snd]. rewrite app_nil_r. auto.
  - cbn [argmax_from].
    assert (Happ : pre ++ v :: l = (pre ++ [v]) ++ l)
      by (rewrite <- app_assoc; reflexivity).
    assert (Hlen : length (pre ++ [v]) = S (length pre))
      by (rewrite length_app; cbn; lia).
    rewrite Happ, <- Hlen.
    destruct (Qltb b v) eqn:E.
    + apply Qltb_lt in E. apply IH.
      * rewrite Hlen. lia.
      * rewrite app_nth2 by lia. rewrite Nat.sub_diag. reflexivity.
      * intros t Ht. rewrite Hlen in Ht.
        destruct (Nat.eq_dec t (length pre)) as [->|Hne].
        -- rewrite app_nth2 by lia. rewrite Nat.sub_diag. cbn. lra.
        -- rewrite app_nth1 by lia. specialize (Hle t ltac:(lia)). lra.
      * intros t Ht. rewrite app_nth1 by lia.
        specialize (Hle t ltac:(lia)). lra.
    + apply Qltb_ge in E. apply IH.
      * rewrite Hlen. lia.
      * rewrite app_nth1 by lia. exact Hb.
      * intros t Ht. rewrite Hlen in Ht.
        destruct (Nat.eq_dec t (length pre)) as [->|Hne].
        -- rewrite app_nth2 by lia. rewrite Nat.sub_diag. cbn. exact E.
        -- rewrite app_nth1 by lia. apply Hle. lia.
      * intros t Ht. rewrite app_nth1 by lia. apply Hlt. exact Ht.
Qed.

Lemma np_argmax_spec (l : list Q) :
  l <> [] ->
  (np_argmax l < length l)%nat /\
  np_max l = nth (np_argmax l) l 0 /\
  (forall t, (t < length l)%nat -> nth t l 0 <= np_max l) /\
  (forall t, (t < np_argmax l)%nat -> nth t l 0 < np_max l).
Proof.
  destruct l as [|v l]; [congruence|]. intros _.
  unfold np_argmax, np_max.
  apply (argmax_from_spec l [v] 0%nat v).
  - cbn. lia.
  - reflexivity.
  - intros t Ht. cbn in Ht. assert (t = 0%nat) as -> by lia. cbn. lra.
  - intros t Ht. lia.
Qed.

Lemma reshaped_length (hm : heatmaps_t) (i j : nat) :
  length (reshaped hm i j) = (hm_h hm * hm_w hm)%nat.
Proof. unfold reshaped. rewrite length_map, length_seq. reflexivity. Qed.

Lemma reshaped_nth (hm : heatmaps_t) (i j t : nat) :
  (t < hm_h hm * hm_w hm)%nat ->
  nth t (reshaped hm i j) 0 = hm_at hm i j (t / hm_w hm) (t mod hm_w hm).
Proof.
  intros Ht. unfold reshaped.
  set (f := (fun t => hm_at hm i j (t / hm_w hm) (t mod hm_w hm))%nat).
  rewrite (nth_indep _ 0 (f 0%nat))
    by (rewrite length_map, length_seq; exact Ht).
  rewrite map_nth. rewrite seq_nth by exact Ht. reflexivity.
Qed.

Lemma grid_index (w y x : nat) :
  (x < w)%nat -> ((y * w + x) / w = y /\ (y * w + x) mod w = x)%nat.
Proof.
  intros Hx. split.
  - symmetry. apply (Nat.div_unique _ _ _ x); lia.
  - symmetry. apply (Nat.mod_unique _ _ y); lia.
Qed.

(** C2.  For a batch with a non-empty grid, sample [i] and joint [j]:
    [_max_preds] returns normally; the confidence is the largest entry of
    the grid, found at column [px], row [py], the first such position in
    row-major order; the coordinate is [(px, py)] when that value is
    positive and [(0, 0)] when it is [<= 0]; a grid that is 1 at one pixel
    and 0 elsewhere decodes to that pixel with confidence 1. *)
Theorem max_preds_spec (hm : heatmaps_t) (i j : nat) :
  (0 < hm_h hm)%nat -> (0 < hm_w hm)%nat ->
  (i < hm_n hm)%nat -> (j < hm_k hm)%nat ->
  exists (preds : coords_t) (maxvals : nat -> nat -> Q) (px py : nat),
    _max_preds hm = Ok (preds, maxvals) /\
    c_n preds = hm_n hm /\ c_k preds = hm_k hm /\
    (px < hm_w hm)%nat /\ (py < hm_h hm)%nat /\
    (py * hm_w hm + px)%nat = np_argmax (reshaped hm i j) /\
    maxvals i j = hm_at hm i j py px /\
    (forall y x, (y < hm_h hm)%nat -> (x < hm_w hm)%nat ->
       hm_at hm i j y x <= maxvals i j) /\
    (forall y x, (y < hm_h hm)%nat -> (x < hm_w hm)%nat ->
       (y * hm_w hm + x < py * hm_w hm + px)%nat ->
       hm_at hm i j y x < maxvals i j) /\
    (0 < maxvals i j ->
       veq (c_at preds i j) (inject_Z (Z.of_nat px), inject_Z (Z.of_nat py))) /\
    (maxvals i j <= 0 -> veq (c_at preds i j) (0, 0)) /\
    (forall x0 y0, (x0 < hm_w hm)%nat -> (y0 < hm_h hm)%nat ->
       (forall y x, (y < hm_h hm)%nat -> (x < hm_w hm)%nat ->
          hm_at hm i j y x = if ((x =? x0) && (y =? y0))%nat then 1 else 0) ->
       veq (c_at preds i j) (inject_Z (Z.of_nat x0), inject_Z (Z.of_nat y0)) /\
       maxvals i j = 1).
Proof.
  intros Hh Hw Hi Hj.
  set (h := hm_h hm) in *. set (w := hm_w hm) in *.
  set (grid := reshaped hm i j).
  assert (Hlen : length grid = (h * w)%nat) by apply reshaped_length.
  assert (Hne : grid <> []).
  { intros E. rewrite E in Hlen. cbn in Hlen. nia. }
  destruct (np_argmax_spec grid Hne) as (Hidx & Hmax & Hall & Hfirst).
  rewrite Hlen in Hidx.
  set (idx := np_argmax grid) in *.
  assert (Hpx : (idx mod w < w)%nat) by (apply Nat.mod_upper_bound; lia).
  assert (Hpy : (idx / w < h)%nat)
    by (apply Nat.Div0.div_lt_upper_bound; lia).
  assert (Hdm : (idx / w * w + idx mod w = idx)%nat).
  { pose proof (Nat.div_mod_eq idx w). lia. }
  assert (Hval : np_max grid = hm_at hm i j (idx / w) (idx mod w)).
  { rewrite Hmax. apply reshaped_nth. exact Hidx. }
  assert (Hcell : forall y x, (y < h)%nat -> (x < w)%nat ->
            nth (y * w + x) grid 0 = hm_at hm i j y x).
  { intros y x Hy Hx. unfold grid. rewrite reshaped_nth by (fold h w; nia).
    fold w. destruct (grid_index w y x Hx) as [-> ->]. reflexivity. }
  assert (Hok : _max_preds hm = Ok
            ({| c_n := hm_n hm; c_k := hm_k hm;
                c_at := fun i j =>
                  let idx := np_argmax (reshaped hm i j) in
                  let m := if Qltb 0 (np_max (reshaped hm i j)) then 1 else 0 in
                  (inject_Z (Z.of_nat (idx mod w)) * m,
                   inject_Z (Z.of_nat (idx / w)) * m) |},
             fun i j => np_max (reshaped hm i j))).
  { unfold _max_preds. fold h w.
    replace ((hm_n hm * hm_k hm =? 0) || (h * w =? 0))%nat with false;
      [reflexivity|].
    symmetry. apply orb_false_iff. split; apply Nat.eqb_neq; nia. }
  eexists _, _, (idx mod w)%nat, (idx / w)%nat.
  split; [exact Hok|]. cbn [c_n c_k c_at]. fold grid idx.
  assert (Hle : forall y x, (y < h)%nat -> (x < w)%nat ->
            hm_at hm i j y x <= np_max grid).
  { intros y x Hy Hx. rewrite <- Hcell by assumption.
    apply Hall. rewrite Hlen. nia. }
  assert (Hpos : 0 < np_max grid ->
            veq (inject_Z (Z.of_nat (idx mod w)) *
                   (if Qltb 0 (np_max grid) then 1 else 0),
                 inject_Z (Z.of_nat (idx / w)) *
                   (if Qltb 0 (np_max grid) then 1 else 0))
                (inject_Z (Z.of_nat (idx mod w)), inject_Z (Z.of_nat (idx / w)))).
  { intros Hp. apply Qltb_lt in Hp. rewrite Hp.
    split; cbn [fst snd]; ring. }
  repeat apply conj; try assumption; try reflexivity.
  - intros y x Hy Hx Hbefore. rewrite <- Hcell by assumption.
    apply Hfirst. lia.
  - intros Hz. apply Qltb_ge in Hz. rewrite Hz. split; cbn [fst snd]; ring.
  - intros x0 y0 Hx0 Hy0 Hhot.
    assert (Hpeak : hm_at hm i j y0 x0 = 1)
      by (rewrite Hhot by assumption; rewrite !Nat.eqb_refl; reflexivity).
    pose proof (Hle y0 x0 Hy0 Hx0) as Hge. rewrite Hpeak in Hge.
    pose proof (Hhot _ _ Hpy Hpx) as Hat. rewrite <- Hval in Hat.
    destruct ((idx mod w =? x0) && (idx / w =? y0))%nat eqn:E.
    + apply andb_true_iff in E. destruct E as [Ex Ey].
      apply Nat.eqb_eq in Ex, Ey. rewrite <- Ex, <- Ey.
      split; [|exact Hat]. apply Hpos. rewrite Hat. reflexivity.
    + rewrite Hat in Hge. exfalso. lra.
Qed.

Lemma max_preds_spec_witness :
  exists preds maxvals,
    _max_preds one_hot_heatmaps = Ok (preds, maxvals) /\
    veq (c_at preds 0%nat 0%nat) (2, 1) /\ maxvals 0%nat 0%nat = 1.
Proof.
  destruct (max_preds_spec one_hot_heatmaps 0 0) as
    (preds & maxvals & px & py & Hok & _ & _ & _ & _ & _ & _ & _ & _ & _ & _ & Hhot);
    try (cbn; lia).
  exists preds, maxvals. split; [exact Hok|].
  apply (Hhot 2%nat 1%nat); try (cbn; lia).
  intros y x _ _. reflexivity.
Defined.

(** *** Sub-pixel refinement *)

Lemma refine_step_spec (hm : heatmaps_t) (c : nat -> nat -> vec2) (i j : nat) :
  (i < hm_n hm)%nat -> (j < hm_k hm)%nat ->
  exists c',
    refine_step hm c i j = Ok c' /\
    c' i j = refined hm i j (c i j) /\
    (forall i' j', ~ (i' = i /\ j' = j) -> c' i' j' = c i' j').
Proof.
  intros Hi Hj. unfold refine_step, refined.
  apply Nat.ltb_lt in Hi, Hj. rewrite Hi, Hj. cbn [andb].
  destruct ((1 <? py_int (fst (c i j))) &&
            (py_int (fst (c i j)) <? Z.of_nat (hm_w hm) - 1) &&
            (1 <? py_int (snd (c i j))) &&
            (py_int (snd (c i j)) <? Z.of_nat (hm_h hm) - 1))%Z.
  - eexists. split; [reflexivity|]. split.
    + unfold upd. rewrite !Nat.eqb_refl. reflexivity.
    + intros i' j' Hne. unfold upd.
      destruct (Nat.eqb_spec i' i); destruct (Nat.eqb_spec j' j);
        cbn [andb]; try reflexivity.
      exfalso. apply Hne. split; assumption.
  - eexists. split; [reflexivity|]. split; [reflexivity|]. reflexivity.
Qed.

Lemma refine_row_spec (hm : heatmaps_t) (i : nat) (js : list nat) :
  (i < hm_n hm)%nat ->
  (forall j, In j js -> (j < hm_k hm)%nat) ->
  NoDup js ->
  forall c, exists c',
    foldM (fun c j => refine_step hm c i j) js c = Ok c' /\
    (forall j', In j' js -> c' i j' = refined hm i j' (c i j')) /\
    (forall i' j', ~ (i' = i /\ In j' js) -> c' i' j' = c i' j').
Proof.
  intros Hi. induction js as [|j js IH]; intros Hjs Hnd c.
  - exists c. cbn. split; [reflexivity|]. split; [tauto|]. reflexivity.
  - inversion Hnd as [|? ? Hnotin Hnd']; subst.
    rewrite list_elem_of_In in Hnotin.
    destruct (refine_step_spec hm c i j Hi (Hjs j (or_introl eq_refl)))
      as (c1 & Hstep & Hat & Hother).
    destruct (IH (fun j' H => Hjs j' (or_intror H)) Hnd' c1)
      as (c' & Hfold & Hin & Hout).
    exists c'. cbn [foldM]. rewrite Hstep. cbn [bind].
    split; [exact Hfold|]. split.
    + intros j' [<-|Hj'].
      * rewrite Hout by tauto. exact Hat.
      * rewrite Hin by exact Hj'. rewrite Hother; [reflexivity|].
        intros [_ ->]. contradiction.
    + intros i' j' Hne. rewrite Hout by (cbn in Hne; tauto).
      apply Hother. cbn in Hne. intros [-> ->]. tauto.
Qed.

Lemma refine_rows_spec (hm : heatmaps_t) (k : nat) (rows : list nat) :
  (k <= hm_k hm)%nat ->
  (forall i, In i rows -> (i < hm_n hm)%nat) ->
  NoDup rows ->
  forall c, exists c',
    foldM (fun c i => foldM (fun c j => refine_step hm c i j) (seq 0 k) c)
      rows c = Ok c' /\
    (forall i' j', In i' rows -> (j' < k)%nat ->
       c' i' j' = refined hm i' j' (c i' j')) /\
    (forall i' j', ~ (In i' rows /\ (j' < k)%nat) -> c' i' j' = c i' j').
Proof.
  intros Hk. induction rows as [|i rows IH]; intros Hrows Hnd c.
  - exists c. cbn. split; [reflexivity|]. split; [tauto|]. reflexivity.
  - inversion Hnd as [|? ? Hnotin Hnd']; subst.
    rewrite list_elem_of_In in Hnotin.
    destruct (refine_row_spec hm i (seq 0 k) (Hrows i (or_introl eq_refl)))
      with (c := c) as (c1 & Hrow & Hin1 & Hout1).
    { intros j Hj. apply in_seq in Hj. lia. }
    { apply NoDup_seq. }
    destruct (IH (fun i' H => Hrows i' (or_intror H)) Hnd' c1)
      as (c' & Hfold & Hin & Hout).
    exists c'. cbn [foldM]. rewrite Hrow. cbn [bind].
    split; [exact Hfold|]. split.
    + intros i' j' [<-|Hi'] Hj'.
      * rewrite Hout by tauto. apply Hin1. apply in_seq. lia.
      * rewrite Hin by assumption. rewrite Hout1; [reflexivity|].
        intros [-> _]. contradiction.
    + intros i' j' Hne. rewrite Hout by (cbn in Hne; tauto).
      apply Hout1. cbn in Hne. intros [-> Hj]. apply in_seq in Hj.
      apply Hne. split; [tauto|lia].
Qed.

(** C4.  [_refine] on coordinates and heat maps of one batch: the entry of
    a joint whose truncated position has [1 < px < W - 1] and
    [1 < py < H - 1] moves by [0.25 * sign (H[py, px+1] - H[py, px-1])] in
    x and [0.25 * sign (H[py+1, px] - H[py-1, px])] in y; every other entry
    is returned as it was. *)
Theorem refine_spec (coords : coords_t) (hm : heatmaps_t) :
  (c_n coords <= hm_n hm)%nat -> (c_k coords <= hm_k hm)%nat ->
  exists out,
    _refine coords hm = Ok out /\
    c_n out = c_n coords /\ c_k out = c_k coords /\
    forall i j, (i < c_n coords)%nat -> (j < c_k coords)%nat ->
      let v := c_at coords i j in
      let px := py_int (fst v) in
      let py := py_int (snd v) in
      let H (y x : Z) := hm_at hm i j (Z.to_nat y) (Z.to_nat x) in
      c_at out i j =
        if ((1 <? px) && (px <? Z.of_nat (hm_w hm) - 1) &&
            (1 <? py) && (py <? Z.of_nat (hm_h hm) - 1))%Z
        then (fst v + np_sign (H py (px + 1)%Z - H py (px - 1)%Z) * (1 # 4),
              snd v + np_sign (H (py + 1)%Z px - H (py - 1)%Z px) * (1 # 4))
        else v.
Proof.
  intros Hn Hk.
  destruct (refine_rows_spec hm (c_k coords) (seq 0 (c_n coords)) Hk)
    with (c := c_at coords) as (c' & Hfold & Hin & _).
  { intros i Hi. apply in_seq in Hi. lia. }
  { apply NoDup_seq. }
  eexists. unfold _refine. rewrite Hfold. cbn [bind].
  split; [reflexivity|]. cbn [c_n c_k c_at].
  split; [reflexivity|]. split; [reflexivity|].
  intros i j Hi Hj. rewrite Hin by (try apply in_seq; lia).
  reflexivity.
Qed.

Lemma refine_spec_witness :
  exists out,
    _refine centre_coords ramp_heatmaps = Ok out /\
    c_at out 0%nat 0%nat = (9 # 4, 7 # 4).
Proof.
  destruct (refine_spec centre_coords ramp_heatmaps) as (out & Hok & _ & _ & Hat);
    [cbn; lia | cbn; lia |].
  exists out. split; [exact Hok|].
  rewrite (Hat 0%nat 0%nat) by (cbn; lia).
  reflexivity.
Defined.

End OnnxVitposeFacts.

(** ** Coordinate normaliser *)

Module NormalizerFacts.
Import Normalizer.

Lemma py_round_comp (x y : Q) : x == y -> py_round x = py_round y.
Proof.
  intros H. unfold py_round.
  rewrite (Qfloor_comp x y H).
  rewrite (Qltb_comp (x - inject_Z (Qfloor y)) (y - inject_Z (Qfloor y))
             (1 # 2) (1 # 2)) by (rewrite ?H; reflexivity).
  rewrite (Qltb_comp (1 # 2) (1 # 2)
             (x - inject_Z (Qfloor y)) (y - inject_Z (Qfloor y)))
    by (rewrite ?H; reflexivity).
  reflexivity.
Qed.

Lemma py_round_inject_Z (n : Z) : py_round (inject_Z n) = n.
Proof.
  unfold py_round. rewrite Qfloor_Z.
  assert (H : Qltb (inject_Z n - inject_Z n) (1 # 2) = true).
  { apply Qltb_lt. assert (E : inject_Z n - inject_Z n == 0) by ring.
    rewrite E. reflexivity. }
  rewrite H. reflexivity.
Qed.

Lemma py_round_error (q : Q) :
  Qabs (inject_Z (py_round q) - q) <= 1 # 2.
Proof.
  unfold py_round.
  pose proof (Qfloor_le q) as Hfl.
  pose proof (Qlt_floor q) as Hfu.
  rewrite inject_Z_plus in Hfu. change (inject_Z 1) with 1 in Hfu.
  set (f := Qfloor q) in *.
  apply Qabs_Qle_condition.
  destruct (Qltb (q - inject_Z f) (1 # 2)) eqn:E1.
  - apply Qltb_lt in E1. split; lra.
  - apply Qltb_ge in E1.
    destruct (Qltb (1 # 2) (q - inject_Z f)) eqn:E2.
    + apply Qltb_lt in E2. rewrite inject_Z_plus.
      change (inject_Z 1) with 1. split; lra.
    + apply Qltb_ge in E2. destruct (Z.even f).
      * split; lra.
      * rewrite inject_Z_plus. change (inject_Z 1) with 1. split; lra.
Qed.

(** An integer strictly closer than a half is the one [round] returns. *)
Lemma py_round_nearby (v : Q) (n : Z) :
  Qabs (v - inject_Z n) < 1 # 2 -> py_round v = n.
Proof.
  intros Hv.
  pose proof (py_round_error v) as Hr.
  apply Qabs_Qle_condition in Hr. destruct Hr as [Hr0 Hr1].
  assert (Hv' : - (1 # 2) < v - inject_Z n /\ v - inject_Z n < 1 # 2).
  { destruct (Qlt_le_dec (v - inject_Z n) 0) as [Hneg|Hpos].
    - rewrite (Qabs_neg (v - inject_Z n)) in Hv by lra. split; lra.
    - rewrite (Qabs_pos (v - inject_Z n)) in Hv by lra. split; lra. }
  destruct Hv' as [Hv0 Hv1].
  assert (Hlt : inject_Z (py_round v) < inject_Z (n + 1)).
  { rewrite inject_Z_plus. change (inject_Z 1) with 1. lra. }
  assert (Hgt : inject_Z (n - 1) < inject_Z (py_round v)).
  { assert (E : inject_Z (n - 1) == inject_Z n - 1)
      by (unfold Z.sub; rewrite inject_Z_plus; reflexivity).
    rewrite E. lra. }
  rewrite <- Zlt_Qlt in Hlt, Hgt. lia.
Qed.

End NormalizerFacts.

(** ** Rounding to [float64] *)

Module Float64Facts.
Import Normalizer NormalizerFacts Float64.

Lemma ilog2_le (q : Q) : ~ q == 0 -> Qpower 2 (ilog2 q) <= Qabs q.
Proof.
  intros Hq. unfold ilog2.
  set (e0 := (Z.log2 (Z.abs (Qnum q)) - Z.log2 (Zpos (Qden q)) - 1)%Z).
  destruct (Qle_bool (Qpower 2 (e0 + 1)) (Qabs q)) eqn:E.
  - apply Qle_bool_iff in E. exact E.
  - clear E. destruct q as [n d]. unfold e0. cbn [Qnum Qden Qabs].
    assert (Hn : (0 < Z.abs n)%Z).
    { destruct n; [exfalso; apply Hq; reflexivity|lia|lia]. }
    set (a := Z.log2 (Z.abs n)). set (b := Z.log2 (Zpos d)).
    assert (Ha : (0 <= a)%Z) by apply Z.log2_nonneg.
    assert (Hb : (0 <= b)%Z) by apply Z.log2_nonneg.
    destruct (Z.log2_spec (Z.abs n) Hn) as [Hlo _]. fold a in Hlo.
    destruct (Z.log2_spec (Zpos d) ltac:(lia)) as [_ Hhi]. fold b in Hhi.
    replace (a - b - 1)%Z with (a - Z.succ b)%Z by lia.
    rewrite Qpower_minus by discriminate.
    rewrite <- (Zpower_Qpower 2 a Ha), <- (Zpower_Qpower 2 (Z.succ b)) by lia.
    assert (HB : (0 < 2 ^ Z.succ b)%Z) by (apply Z.pow_pos_nonneg; lia).
    apply Qle_shift_div_r; [rewrite <- (Zlt_Qlt 0); exact HB|].
    unfold Qle, Qmult, inject_Z. cbn [Qnum Qden].
    rewrite !Z.mul_1_r, Pos.mul_1_r. nia.
Qed.

Lemma round_nearest_error (q : Q) :
  Qabs (round_nearest q - q) <= unit_roundoff * Qabs q + half_min_subnormal.
Proof.
  pose proof (Qabs_nonneg q) as Hq0.
  unfold round_nearest. destruct (Qeq_bool q 0) eqn:E.
  - apply Qeq_bool_iff in E.
    assert (E0 : 0 - q == 0) by (rewrite E; reflexivity).
    rewrite E0. change (Qabs 0) with 0.
    assert (0 < half_min_subnormal) by (vm_compute; reflexivity).
    unfold unit_roundoff. lra.
  - apply Qeq_bool_neq in E.
    set (e := Z.max (ilog2 q) (-1022)).
    set (ulp := Qpower 2 (e - 52)).
    assert (Hulp : 0 < ulp) by (apply Qpower_0_lt; reflexivity).
    pose proof (py_round_error (q / ulp)) as Hr.
    set (k := inject_Z (py_round (q / ulp))) in *.
    assert (Ed : k * ulp - q == (k - q / ulp) * ulp) by (field; lra).
    rewrite Ed, Qabs_Qmult, (Qabs_pos ulp) by lra.
    assert (Hhalf : Qabs (k - q / ulp) * ulp <= (1 # 2) * ulp).
    { apply Qmult_le_compat_r; [exact Hr|lra]. }
    assert (Hbound : (1 # 2) * ulp
                     <= unit_roundoff * Qabs q + half_min_subnormal).
    { unfold ulp. destruct (Z.max_spec (ilog2 q) (-1022)) as [[_ Em]|[_ Em]];
        fold e in Em; rewrite Em.
      - assert (Em' : (1 # 2) * Qpower 2 (-1022 - 52) == half_min_subnormal)
          by (vm_compute; reflexivity).
        rewrite Em'. unfold unit_roundoff. nra.
      - replace (ilog2 q - 52)%Z with (ilog2 q + -52)%Z by lia.
        rewrite Qpower_plus by discriminate.
        pose proof (ilog2_le q E) as Hl.
        change (Qpower 2 (-52)) with (1 # 4503599627370496).
        assert (0 < half_min_subnormal) by (vm_compute; reflexivity).
        unfold unit_roundoff.
        set (p := Qpower 2 (ilog2 q)) in *. lra. }
    lra.
Qed.

Lemma half_min_subnormal_small :
  0 < half_min_subnormal /\ half_min_subnormal <= 1 # 1152921504606846976.
Proof. split; vm_compute; [reflexivity|discriminate]. Qed.

Lemma round_nearest_near (q t M d : Q) :
  near q t d -> - M <= t -> t <= M ->
  near (round_nearest q) t
       (d + unit_roundoff * (M + d) + half_min_subnormal).
Proof.
  intros [Hl Hu] HM0 HM1.
  pose proof (round_nearest_error q) as He.
  apply Qabs_Qle_condition in He. destruct He as [He0 He1].
  assert (Hq : Qabs q <= M + d) by (apply Qabs_Qle_condition; split; lra).
  unfold near, unit_roundoff in *. split; lra.
Qed.

End Float64Facts.

(** ** The round trip through the normaliser *)

Module NormalizerFloatFacts.
Import Normalizer NormalizerFacts Float64 Float64Facts NormalizerFloat.

(** [2 * (v / w)], as both functions compute it on the way. *)
Lemma doubled_ratio_near (v w : Q) :
  0 < w -> 0 <= v -> v <= w ->
  near (f64_mul (f64_div v w) 2) (2 * (v / w)) (4 * ulp52).
Proof.
  intros Hw Hv0 Hv1.
  destruct half_min_subnormal_small as [Hs0 Hs1].
  assert (Hr0 : 0 <= v / w) by (apply Qle_shift_div_l; lra).
  assert (Hr1 : v / w <= 1) by (apply Qle_shift_div_r; lra).
  set (r := v / w) in *.
  assert (H1 : near (f64_div v w) r ulp52).
  { pose proof (round_nearest_near (v / w) r 1 0) as H.
    fold r in H. unfold near, f64_div, unit_roundoff, ulp52 in *.
    fold r. destruct H as [Ha Hb]; [split; lra|lra|lra|]. split; lra. }
  set (a := f64_div v w) in *.
  pose proof (round_nearest_near (a * 2) (2 * r) 2 (2 * ulp52)) as H.
  unfold near, f64_mul, unit_roundoff, ulp52 in *.
  destruct H1 as [Ha Hb].
  destruct H as [Hc Hd]; [split; lra|lra|lra|]. split; lra.
Qed.

(** The last two operations of [_denormalize] on a value close to
    [2 * (v / w)]. *)
Lemma halved_scaled_near (t v w : Q) :
  0 < w -> 0 <= v -> v <= w ->
  near t (2 * (v / w)) (7 * ulp52) ->
  near (f64_mul (f64_mul t (1 # 2)) w) v
       (6 * ulp52 * w + half_min_subnormal).
Proof.
  intros Hw Hv0 Hv1 [Ht0 Ht1].
  destruct half_min_subnormal_small as [Hs0 Hs1].
  assert (Hr0 : 0 <= v / w) by (apply Qle_shift_div_l; lra).
  assert (Hr1 : v / w <= 1) by (apply Qle_shift_div_r; lra).
  assert (Er : v / w * w == v) by (field; lra).
  set (r := v / w) in *.
  assert (H1 : near (f64_mul t (1 # 2)) r (5 * ulp52)).
  { pose proof (round_nearest_near (t * (1 # 2)) r 1 ((7 # 2) * ulp52)) as H.
    unfold near, f64_mul, unit_roundoff, ulp52 in *.
    destruct H as [Ha Hb]; [split; lra|lra|lra|]. split; lra. }
  set (e := f64_mul t (1 # 2)) in *.
  pose proof (round_nearest_near (e * w) v w (5 * ulp52 * w)) as H.
  unfold near, f64_mul, unit_roundoff, ulp52 in *.
  destruct H1 as [Ha Hb].
  destruct H as [Hc Hd]; [split; nra|lra|lra|]. split; lra.
Qed.

(** The x coordinate: [((x / w) * 2 - 1 + 1) * 0.5 * w]. *)
Lemma x_round_trip_near (x w : Q) :
  0 < w -> 0 <= x -> x <= w ->
  near (f64_mul (f64_mul (f64_add (f64_sub (f64_mul (f64_div x w) 2) 1) 1)
                         (1 # 2)) w)
       x (6 * ulp52 * w + half_min_subnormal).
Proof.
  intros Hw Hx0 Hx1.
  destruct half_min_subnormal_small as [Hs0 Hs1].
  pose proof (doubled_ratio_near x w Hw Hx0 Hx1) as [Hb0 Hb1].
  assert (Hr0 : 0 <= x / w) by (apply Qle_shift_div_l; lra).
  assert (Hr1 : x / w <= 1) by (apply Qle_shift_div_r; lra).
  set (r := x / w) in *. set (b := f64_mul (f64_div x w) 2) in *.
  assert (Hnx : near (f64_sub b 1) (2 * r - 1) (5 * ulp52)).
  { pose proof (round_nearest_near (b - 1) (2 * r - 1) 1 (4 * ulp52)) as H.
    unfold near, f64_sub, unit_roundoff, ulp52 in *.
    destruct H as [Ha Hb]; [split; lra|lra|lra|]. split; lra. }
  set (nx := f64_sub b 1) in *.
  apply halved_scaled_near; try assumption. fold r.
  pose proof (round_nearest_near (nx + 1) (2 * r) 2 (5 * ulp52)) as H.
  unfold near, f64_add, unit_roundoff, ulp52 in *.
  destruct Hnx as [Hn0 Hn1].
  destruct H as [Ha Hb]; [split; lra|lra|lra|]. split; lra.
Qed.

(** The y coordinate: [(1 - (1 - (y / h) * 2)) * 0.5 * h]. *)
Lemma y_round_trip_near (y h : Q) :
  0 < h -> 0 <= y -> y <= h ->
  near (f64_mul (f64_mul (f64_sub 1 (f64_sub 1 (f64_mul (f64_div y h) 2)))
                         (1 # 2)) h)
       y (6 * ulp52 * h + half_min_subnormal).
Proof.
  intros Hh Hy0 Hy1.
  destruct half_min_subnormal_small as [Hs0 Hs1].
  pose proof (doubled_ratio_near y h Hh Hy0 Hy1) as [Hb0 Hb1].
  assert (Hr0 : 0 <= y / h) by (apply Qle_shift_div_l; lra).
  assert (Hr1 : y / h <= 1) by (apply Qle_shift_div_r; lra).
  set (r := y / h) in *. set (b := f64_mul (f64_div y h) 2) in *.
  assert (Hny : near (f64_sub 1 b) (1 - 2 * r) (5 * ulp52)).
  { pose proof (round_nearest_near (1 - b) (1 - 2 * r) 1 (4 * ulp52)) as H.
    unfold near, f64_sub, unit_roundoff, ulp52 in *.
    destruct H as [Ha Hb]; [split; lra|lra|lra|]. split; lra. }
  set (ny := f64_sub 1 b) in *.
  apply halved_scaled_near; try assumption. fold r.
  pose proof (round_nearest_near (1 - ny) (2 * r) 2 (5 * ulp52)) as H.
  unfold near, f64_sub, unit_roundoff, ulp52 in *.
  destruct Hny as [Hn0 Hn1].
  destruct H as [Ha Hb]; [split; lra|lra|lra|]. split; lra.
Qed.

Lemma round_trip_pixel (v t size : Q) :
  0 < size -> size <= max_frame_size ->
  near v t (6 * ulp52 * size + half_min_subnormal) ->
  Qabs (inject_Z (py_round v) - t) <= (1 # 2) + round_trip_tolerance /\
  forall n : Z, t == inject_Z n -> py_round v = n.
Proof.
  intros Hs0 Hs1 [Hv0 Hv1].
  destruct half_min_subnormal_small as [He0 He1].
  unfold max_frame_size, round_trip_tolerance, ulp52 in *.
  split.
  - pose proof (py_round_error v) as Hr.
    apply Qabs_Qle_condition in Hr. destruct Hr as [Hr0 Hr1].
    apply Qabs_Qle_condition. split; lra.
  - intros n Hn. apply py_round_nearby.
    apply Qle_lt_trans with (y := 1 # 131072); [|reflexivity].
    apply Qabs_Qle_condition. split; lra.
Qed.

(** C3 (as the code has it).  For a pixel inside a frame of positive
    width and height (up to [2^32]), [_denormalize] applied to the
    normalised point returns integer pixel coordinates within half a pixel
    of the original ones, up to the rounding of the six [float64]
    operations on the way; a pixel with integer coordinates comes back as
    it was. *)
Theorem normalize_denormalize_rounds (x y width height : Q) :
  0 < width -> width <= max_frame_size ->
  0 < height -> height <= max_frame_size ->
  0 <= x -> x <= width -> 0 <= y -> y <= height ->
  exists nx ny px py,
    _normalize_point x y width height = Ok (nx, ny) /\
    _denormalize {[ "x"%string := nx; "y"%string := ny ]} width height
      = (px, py) /\
    Qabs (inject_Z px - x) <= (1 # 2) + round_trip_tolerance /\
    Qabs (inject_Z py - y) <= (1 # 2) + round_trip_tolerance /\
    (forall n : Z, x == inject_Z n -> px = n) /\
    (forall m : Z, y == inject_Z m -> py = m).
Proof.
  intros Hw0 Hw1 Hh0 Hh1 Hx0 Hx1 Hy0 Hy1.
  assert (Ew : Qeq_bool width 0 = false).
  { destruct (Qeq_bool width 0) eqn:E; [|reflexivity].
    apply Qeq_bool_iff in E. lra. }
  assert (Eh : Qeq_bool height 0 = false).
  { destruct (Qeq_bool height 0) eqn:E; [|reflexivity].
    apply Qeq_bool_iff in E. lra. }
  eexists _, _, _, _. unfold _normalize_point. rewrite Ew, Eh. cbn [orb].
  split; [reflexivity|].
  unfold _denormalize.
  rewrite lookup_insert_eq.
  rewrite lookup_insert_ne by discriminate.
  rewrite lookup_singleton_eq. unfold default, from_option, id.
  split; [reflexivity|].
  destruct (round_trip_pixel _ x width Hw0 Hw1
              (x_round_trip_near x width Hw0 Hx0 Hx1)) as [Hpx Hnx].
  destruct (round_trip_pixel _ y height Hh0 Hh1
              (y_round_trip_near y height Hh0 Hy0 Hy1)) as [Hpy Hny].
  repeat split; assumption.
Qed.

Lemma normalize_denormalize_rounds_witness :
  exists nx ny,
    _normalize_point 320 240 640 480 = Ok (nx, ny) /\
    _denormalize {[ "x"%string := nx; "y"%string := ny ]} 640 480
      = (320%Z, 240%Z).
Proof.
  destruct (normalize_denormalize_rounds 320 240 640 480)
    as (nx & ny & px & py & Hn & Hd & _ & _ & Hx & Hy);
    [reflexivity | discriminate | reflexivity | discriminate
    | discriminate | discriminate | discriminate | discriminate |].
  exists nx, ny. split; [exact Hn|].
  rewrite Hd, (Hx 320%Z), (Hy 240%Z) by reflexivity. reflexivity.
Defined.

(** At a half-integer coordinate the rounding of the intermediate results
    decides the side: 240.5 comes back as 240.50000000000003 and is
    rounded up. *)
Example half_pixel_rounds_up :
  exists nx ny,
    _normalize_point 320 (481 # 2) 640 480 = Ok (nx, ny) /\
    _denormalize {[ "x"%string := nx; "y"%string := ny ]} 640 480
      = (320%Z, 241%Z).
Proof. eexists _, _. split; [reflexivity|]. vm_compute. reflexivity. Qed.

(** C3, the claim as written fails: the pixel [(1/4, 1/4)] of a 4x4 frame
    normalises to [(-7/8, 7/8)] and comes back as [(0, 0)], a quarter of a
    pixel away in each coordinate. *)
Lemma normalize_denormalize_counterexample :
  0 <= 1 # 4 /\ 1 # 4 <= 4 /\ 0 < 4 /\
  exists nx ny px py,
    _normalize_point (1 # 4) (1 # 4) 4 4 = Ok (nx, ny) /\
    _denormalize {[ "x"%string := nx; "y"%string := ny ]} 4 4 = (px, py) /\
    Qabs (inject_Z px - (1 # 4)) == 1 # 4 /\
    Qabs (inject_Z py - (1 # 4)) == 1 # 4.
Proof.
  split; [discriminate|]. split; [discriminate|]. split; [reflexivity|].
  eexists _, _, _, _. split; [reflexivity|].
  split; [vm_compute; reflexivity|].
  split; reflexivity.
Qed.

End NormalizerFloatFacts.

(** ** Temporal smoother *)

Module SmoothFacts.
Import Smooth.

Lemma py_int_nonneg (q : Q) : 0 <= q -> py_int q = Qfloor q.
Proof.
  intros Hq. unfold py_int, Qfloor. destruct q as [n d]. cbn [Qnum Qden].
  apply Z.quot_div_nonneg; [|lia].
  unfold Qle in Hq. cbn in Hq. lia.
Qed.

Lemma py_int_bounds (q : Q) (a b : Z) :
  0 <= q -> inject_Z a <= q -> q <= inject_Z b -> (a <= py_int q <= b)%Z.
Proof.
  intros H0 Ha Hb. rewrite py_int_nonneg by exact H0.
  apply Qfloor_resp_le in Ha, Hb. rewrite Qfloor_Z in Ha, Hb.
  split; assumption.
Qed.

Lemma odd_mod2 (w : Z) : (w mod 2 =? 0)%Z = false -> Z.odd w = true.
Proof.
  intros H. apply Z.eqb_neq in H. rewrite Zmod_odd in H.
  destruct (Z.odd w); [reflexivity|congruence].
Qed.

Lemma odd_succ_even (w : Z) : (w mod 2 =? 0)%Z = true -> Z.odd (w + 1) = true.
Proof.
  intros H. apply Z.eqb_eq in H. rewrite Zmod_odd in H.
  rewrite Z.odd_add. destruct (Z.odd w); [discriminate|reflexivity].
Qed.

(** The window handed to [savgol_filter], for any series of at least three
    samples: odd, at least 3 and at most the length of the series. *)
Lemma savgol_window_general
    (f : list Q -> Z -> Z -> list Q) (series : list Q) (strength : Q) :
  (3 <= length series)%nat -> 0 <= strength ->
  exists window,
    _savgol f series strength = f series window 2%Z /\
    Z.odd window = true /\
    (3 <= window <= Z.of_nat (length series))%Z /\
    ((Z.of_nat (length series) <= py_int (3 + strength * 18))%Z ->
     Z.odd (Z.of_nat (length series)) = true ->
     window = Z.of_nat (length series)).
Proof.
  intros Hlen Hs. unfold _savgol.
  set (len := Z.of_nat (length series)).
  assert (Hl : (3 <= len)%Z) by (unfold len; lia).
  destruct (Z.ltb_spec len 3%Z); [lia|].
  set (w0 := py_int (3 + strength * 18)).
  assert (Hw0 : (3 <= w0)%Z).
  { unfold w0. rewrite py_int_nonneg by lra.
    assert (Hq : inject_Z 3 <= 3 + strength * 18)
      by (change (inject_Z 3) with 3; lra).
    apply Qfloor_resp_le in Hq. rewrite Qfloor_Z in Hq. exact Hq. }
  eexists. split; [reflexivity|].
  destruct (w0 mod 2 =? 0)%Z eqn:Epar.
  - pose proof (odd_succ_even _ Epar) as Hodd.
    destruct (Z.leb_spec len (w0 + 1)).
    + destruct (len mod 2 =? 0)%Z eqn:Elen.
      * assert (Hodd' : Z.odd (len - 1) = true).
        { replace (len - 1)%Z with (len + 1 - 2)%Z by lia.
          rewrite Z.odd_sub, (odd_succ_even _ Elen). reflexivity. }
        assert (3 <= len - 1)%Z.
        { destruct (Z.eq_dec len 3%Z) as [E3|]; [|lia].
          rewrite E3 in Elen. discriminate. }
        destruct (Z.ltb_spec (len - 1) 3%Z); [lia|].
        repeat split; try assumption; try lia.
        intros _ Ho. apply Z.eqb_eq in Elen. rewrite Zmod_odd, Ho in Elen.
        discriminate.
      * destruct (Z.ltb_spec len 3%Z); [lia|].
        repeat split; try lia. exact (odd_mod2 _ Elen).
    + destruct (Z.ltb_spec (w0 + 1) 3%Z); [lia|].
      repeat split; try assumption; try lia.
  - pose proof (odd_mod2 _ Epar) as Hodd.
    destruct (Z.leb_spec len w0).
    + destruct (len mod 2 =? 0)%Z eqn:Elen.
      * assert (Hodd' : Z.odd (len - 1) = true).
        { replace (len - 1)%Z with (len + 1 - 2)%Z by lia.
          rewrite Z.odd_sub, (odd_succ_even _ Elen). reflexivity. }
        assert (3 <= len - 1)%Z.
        { destruct (Z.eq_dec len 3%Z) as [E3|]; [|lia].
          rewrite E3 in Elen. discriminate. }
        destruct (Z.ltb_spec (len - 1) 3%Z); [lia|].
        repeat split; try assumption; try lia.
        intros _ Ho. apply Z.eqb_eq in Elen. rewrite Zmod_odd, Ho in Elen.
        discriminate.
      * destruct (Z.ltb_spec len 3%Z); [lia|].
        repeat split; try lia. exact (odd_mod2 _ Elen).
    + destruct (Z.ltb_spec w0 3%Z); [lia|].
      repeat split; try assumption; try lia.
Qed.

(** C6 (as the code has it).  For a series of five samples and a strength
    in [0, 1] the window handed to [savgol_filter] is odd, at least 3 and
    at most 5, and it is 5 as soon as [strength >= 1/9]; a series of fewer
    than three samples is returned as it is. *)
Theorem savgol_window_bounds
    (f : list Q -> Z -> Z -> list Q) (series : list Q) (strength : Q) :
  (length series = 5%nat -> 0 <= strength -> strength <= 1 ->
   exists window,
     _savgol f series strength = f series window 2%Z /\
     Z.odd window = true /\ (3 <= window <= 5)%Z /\
     (1 # 9 <= strength -> window = 5%Z)) /\
  ((length series < 3)%nat -> _savgol f series strength = series).
Proof.
  split.
  - intros Hlen H0 H1.
    destruct (savgol_window_general f series strength) as
      (window & Hcall & Hodd & Hrange & Hfull); [lia | exact H0 |].
    rewrite Hlen in Hrange, Hfull.
    exists window. repeat split; try assumption; try lia.
    intros Hs. apply Hfull; [|reflexivity].
    apply (py_int_bounds _ 5 21); change (inject_Z 5) with 5;
      change (inject_Z 21) with 21; lra.
  - intros Hlen. unfold _savgol.
    destruct (Z.ltb_spec (Z.of_nat (length series)) 3%Z); [reflexivity|lia].
Qed.

Lemma savgol_window_bounds_witness :
  exists window,
    _savgol savgol_filter_w3 [1; 2; 3; 4; 5] 0
      = savgol_filter_w3 [1; 2; 3; 4; 5] window 2%Z /\
    Z.odd window = true /\ (3 <= window <= 5)%Z.
Proof.
  destruct (proj1 (savgol_window_bounds savgol_filter_w3 [1; 2; 3; 4; 5] 0))
    as (window & Hcall & Hodd & Hrange & _);
    [reflexivity | discriminate | discriminate |].
  exists window. auto.
Defined.

(** C6, the claim as written fails: at strength 1/2 the window for five
    samples is 5, not below 5. *)
Lemma savgol_window_counterexample :
  0 <= 1 # 2 /\ 1 # 2 <= 1 /\ length [1; 2; 3; 4; 5] = 5%nat /\
  _savgol (fun _ window _ => [inject_Z window]) [1; 2; 3; 4; 5] (1 # 2)
    = [inject_Z 5] /\
  ~ (5 < 5)%Z.
Proof.
  split; [discriminate|]. split; [discriminate|]. split; [reflexivity|].
  split; [reflexivity|lia].
Qed.

(** *** Mode dispatch *)

(** C7 (as the code has it).  [smooth_sequence] has no error path for the
    mode: every mode string other than "savgol" selects the one-euro
    filter and gives the result of mode "oneEuro". *)
Theorem smooth_sequence_unknown_mode
    (f : list Q -> Z -> Z -> list Q) (sequence : list (gmap string cell))
    (joint_ids : list string) (fps : Q) (mode : string) (strength : Q) :
  mode <> "savgol"%string ->
  smooth_sequence f sequence joint_ids fps mode strength
    = smooth_sequence f sequence joint_ids fps "oneEuro" strength.
Proof.
  intros Hmode. unfold smooth_sequence, smooth_column.
  rewrite (bool_decide_eq_false_2 (mode = "savgol"%string) Hmode).
  rewrite (bool_decide_eq_false_2 ("oneEuro"%string = "savgol"%string))
    by discriminate.
  reflexivity.
Qed.

Lemma smooth_sequence_unknown_mode_witness :
  smooth_sequence savgol_filter_w3
    [{[ "nose"%string := (Fin (1 # 2), Fin (1 # 4), Fin (9 # 10)) ]}]
    ["nose"%string] 30 "median" (3 # 5)
  = smooth_sequence savgol_filter_w3
      [{[ "nose"%string := (Fin (1 # 2), Fin (1 # 4), Fin (9 # 10)) ]}]
      ["nose"%string] 30 "oneEuro" (3 # 5).
Proof.
  apply (smooth_sequence_unknown_mode savgol_filter_w3
           [{[ "nose"%string := (Fin (1 # 2), Fin (1 # 4), Fin (9 # 10)) ]}]
           ["nose"%string] 30 "median" (3 # 5)).
  discriminate.
Defined.

(** C7, the claim as written fails: the mode "median" is neither
    "oneEuro" nor "savgol", and the call returns a smoothed track. *)
Lemma smooth_sequence_unknown_mode_counterexample :
  "median"%string <> "oneEuro"%string /\ "median"%string <> "savgol"%string /\
  smooth_sequence savgol_filter_w3
    [{[ "nose"%string := (Fin (1 # 2), Fin (1 # 4), Fin (9 # 10)) ]}]
    ["nose"%string] 30 "median" (3 # 5)
  = Ok [{[ "nose"%string := (1 # 2, 1 # 4, 9 # 10) ]}].
Proof.
  split; [discriminate|]. split; [discriminate|].
  vm_compute. reflexivity.
Qed.

(** *** Shapes *)



Lemma one_euro_loop_length (dt mc b dc : Q) (rest : list Q) :
  forall prev dxp, length (one_euro_loop dt mc b dc rest prev dxp) = length rest.
Proof.
  induction rest as [|v rest IH]; intros prev dxp; [reflexivity|].
  cbn [one_euro_loop length]. rewrite IH. reflexivity.
Qed.







Section smoothing_loop.
Variable f : list Q -> Z -> Z -> list Q.
Hypothesis f_length : forall series w p, length (f series w p) = length series.
Variables (fps : Q) (mode : string) (strength : Q).






End smoothing_loop.

(** *** What the loop leaves in a row *)

Lemma nth_insert_cell (row : list cell) (ji ji' : nat) (c : cell) :
  nth ji' (<[ji := c]> row) nan_cell =
    if decide (ji' = ji /\ (ji < length row)%nat) then c
    else nth ji' row nan_cell.
Proof.
  rewrite !nth_lookup. case_decide as Hd.
  - destruct Hd as [-> Hlt]. rewrite list_lookup_insert_eq by exact Hlt.
    reflexivity.
  - destruct (Nat.eq_dec ji' ji) as [->|Hne].
    + rewrite list_insert_ge by lia. reflexivity.
    + rewrite list_lookup_insert_ne by congruence. reflexivity.
Qed.

Lemma get_set_axis_finite (axis axis' : nat) (v : Q) (c : cell) :
  isfinite (get_axis axis' c) = true ->
  isfinite (get_axis axis' (set_axis axis (Fin v) c)) = true.
Proof.
  destruct axis as [|[|axis]], axis' as [|[|axis']]; cbn; auto.
Qed.

Lemma get_set_axis_same (axis : nat) (v : Q) (c : cell) :
  isfinite (get_axis axis (set_axis axis (Fin v) c)) = true.
Proof. destruct axis as [|[|axis]]; reflexivity. Qed.

Lemma row_step_length (ji axis : nat) (r r' : list cell) :
  row_step ji axis r r' -> length r' = length r.
Proof. intros [v ->]. apply length_insert. Qed.

Lemma row_step_sets (ji axis : nat) (r r' : list cell) :
  row_step ji axis r r' -> (ji < length r)%nat -> finite_at r' ji axis.
Proof.
  intros [v ->] Hlt. unfold finite_at. rewrite nth_insert_cell.
  rewrite decide_True by tauto. apply get_set_axis_same.
Qed.

Lemma row_step_keeps (ji axis : nat) (r r' : list cell) :
  row_step ji axis r r' ->
  forall ji' axis', finite_at r ji' axis' -> finite_at r' ji' axis'.
Proof.
  intros [v ->] ji' axis' Hfin. unfold finite_at in *.
  rewrite nth_insert_cell. case_decide as Hd; [|exact Hfin].
  destruct Hd as [-> _]. apply get_set_axis_finite. exact Hfin.
Qed.

Lemma both_axes_spec (ji : nat) (r r' : list cell) :
  both_axes ji r r' ->
  length r' = length r /\
  ((ji < length r)%nat -> finite_at r' ji 0 /\ finite_at r' ji 1) /\
  (forall ji' axis', finite_at r ji' axis' -> finite_at r' ji' axis').
Proof.
  intros (r1 & H0 & H1).
  pose proof (row_step_length _ _ _ _ H0) as L0.
  pose proof (row_step_length _ _ _ _ H1) as L1.
  split; [congruence|]. split.
  - intros Hlt. split.
    + apply (row_step_keeps _ _ _ _ H1). apply (row_step_sets _ _ _ _ H0 Hlt).
    + apply (row_step_sets _ _ _ _ H1). lia.
  - intros ji' axis' Hfin.
    apply (row_step_keeps _ _ _ _ H1), (row_step_keeps _ _ _ _ H0), Hfin.
Qed.

Lemma joints_chain_spec (jis : list nat) :
  forall r r' : list cell,
    joints_chain jis r r' ->
    length r' = length r /\
    (forall ji, In ji jis -> (ji < length r)%nat ->
       finite_at r' ji 0 /\ finite_at r' ji 1) /\
    (forall ji' axis', finite_at r ji' axis' -> finite_at r' ji' axis').
Proof.
  induction jis as [|ji jis IH]; intros r r' Hch; cbn [joints_chain] in Hch.
  - subst r'. split; [reflexivity|]. split; [intros ? []|auto].
  - destruct Hch as (r1 & Hb & Hrest).
    destruct (both_axes_spec _ _ _ Hb) as (L1 & Hset1 & Hkeep1).
    destruct (IH _ _ Hrest) as (L2 & Hset2 & Hkeep2).
    split; [congruence|]. split.
    + intros ji' [<-|Hin] Hlt.
      * destruct (Hset1 Hlt) as [Hx Hy]. split; apply Hkeep2; assumption.
      * apply Hset2; [exact Hin|lia].
    + intros ji' axis' Hfin. apply Hkeep2, Hkeep1, Hfin.
Qed.

(** *** The output dictionaries *)

Lemma emit_spec (row : list cell) (d : gmap string (Q * Q * Q))
    (ji : nat) (jid : string) :
  (forall k, is_Some (d !! k) -> is_Some (emit row d ji jid !! k)) /\
  (forall k, is_Some (emit row d ji jid !! k) -> is_Some (d !! k) \/ k = jid) /\
  (finite_at row ji 0 -> finite_at row ji 1 ->
   is_Some (emit row d ji jid !! jid)).
Proof.
  unfold emit, finite_at.
  destruct (nth ji row nan_cell) as [[x y] c]. cbn [get_axis fst snd].
  assert (Hins : forall v : Q * Q * Q,
            (forall k, is_Some (d !! k) -> is_Some (<[jid := v]> d !! k)) /\
            (forall k, is_Some (<[jid := v]> d !! k) ->
                       is_Some (d !! k) \/ k = jid) /\
            is_Some (<[jid := v]> d !! jid)).
  { intros v. split; [|split].
    - intros k Hk. destruct (decide (k = jid)) as [->|Hne].
      + rewrite lookup_insert_eq. eauto.
      + rewrite lookup_insert_ne by congruence. exact Hk.
    - intros k Hk. destruct (decide (k = jid)) as [->|Hne]; [right; reflexivity|].
      rewrite lookup_insert_ne in Hk by congruence. left. exact Hk.
    - rewrite lookup_insert_eq. eauto. }
  destruct x, y; cbn [isfinite];
    try (split; [auto | split; [auto | discriminate]]).
  destruct (Hins (q, q0, match c with Fin c0 => c0 | _ => 0 end))
    as (H1 & H2 & H3).
  split; [exact H1|]. split; [exact H2|]. intros _ _. exact H3.
Qed.

Lemma emit_fold_spec (row : list cell) (pairs : list (nat * string)) :
  forall d : gmap string (Q * Q * Q),
    let res := fold_left (fun frame_dict '(ji, jid) =>
                            emit row frame_dict ji jid) pairs d in
    (forall k, is_Some (d !! k) -> is_Some (res !! k)) /\
    (forall k, is_Some (res !! k) ->
       is_Some (d !! k) \/ exists ji, In (ji, k) pairs) /\
    (forall ji jid, In (ji, jid) pairs ->
       finite_at row ji 0 -> finite_at row ji 1 -> is_Some (res !! jid)).
Proof.
  induction pairs as [|[ji jid] pairs IH]; intros d; cbn [fold_left].
  - split; [auto|]. split; [auto|]. intros ? ? [].
  - destruct (emit_spec row d ji jid) as (E1 & E2 & E3).
    destruct (IH (emit row d ji jid)) as (I1 & I2 & I3).
    split; [|split].
    + intros k Hk. apply I1, E1, Hk.
    + intros k Hk. destruct (I2 k Hk) as [Hd|[ji' Hin]].
      * destruct (E2 k Hd) as [Hd'| ->]; [left; exact Hd'|].
        right. exists ji. left. reflexivity.
      * right. exists ji'. right. exact Hin.
    + intros ji' jid' [[= <- <-]|Hin] Hx Hy.
      * apply I1, E3; assumption.
      * exact (I3 ji' jid' Hin Hx Hy).
Qed.






Section smooth_sequence_facts.
Variable f : list Q -> Z -> Z -> list Q.
Hypothesis f_length : forall series w p, length (f series w p) = length series.


End smooth_sequence_facts.








Lemma smooth_sequence_empty_savgol :
  smooth_sequence savgol_filter_w3 [] ["nose"%string] 30 "savgol" (3 # 5)
    = Ok [].
Proof. reflexivity. Qed.

(** *** Gap filling *)

Lemma valid_from_app (u w : list fval) :
  forall i, valid_from i (u ++ w)
            = valid_from i u ++ valid_from (i + length u) w.
Proof.
  induction u as [|v u IH]; intros i; cbn [app valid_from length].
  - rewrite Nat.add_0_r. reflexivity.
  - replace (i + S (length u))%nat with (S i + length u)%nat by lia.
    destruct v; rewrite IH; reflexivity.
Qed.

Lemma valid_from_nonfinite (u : list fval) :
  Forall (fun v => isfinite v = false) u -> forall i, valid_from i u = [].
Proof.
  induction 1 as [|v u Hv _ IH]; intros i; [reflexivity|].
  destruct v; try discriminate; cbn [valid_from]; apply IH.
Qed.

Lemma inject_nat_lt (a b : nat) :
  (a < b)%nat -> inject_Z (Z.of_nat a) < inject_Z (Z.of_nat b).
Proof. intros H. rewrite <- Zlt_Qlt. lia. Qed.

Lemma inject_nat_le (a b : nat) :
  (a <= b)%nat -> inject_Z (Z.of_nat a) <= inject_Z (Z.of_nat b).
Proof. intros H. rewrite <- Zle_Qle. lia. Qed.

Lemma valid_from_bound (u : list fval) :
  forall i, Forall (fun p => fst p < inject_Z (Z.of_nat (i + length u)))
                   (valid_from i u).
Proof.
  induction u as [|v u IH]; intros i; cbn [valid_from length]; [constructor|].
  replace (i + S (length u))%nat with (S i + length u)%nat by lia.
  destruct v; try apply IH.
  constructor; [|apply IH]. cbn [fst]. apply inject_nat_lt. lia.
Qed.

Lemma fill_from_lookup (pts : list (Q * Q)) (arr : list fval) :
  forall i t,
    fill_from i pts arr !! t =
      match arr !! t with
      | Some (Fin q) => Some q
      | Some _ => Some (np_interp (inject_Z (Z.of_nat (i + t))) pts)
      | None => None
      end.
Proof.
  induction arr as [|v arr IH]; intros i t; [reflexivity|].
  destruct t as [|t].
  - rewrite Nat.add_0_r. destruct v; reflexivity.
  - replace (i + S t)%nat with (S i + t)%nat by lia.
    destruct v; cbn [fill_from]; apply IH.
Qed.

Lemma interp_from_segment (x xl a xr b : Q) (p2 : list (Q * Q)) :
  forall (p1 : list (Q * Q)) (x0 f0 : Q),
    Forall (fun p => fst p <= x) p1 -> xl <= x -> x < xr ->
    interp_from x x0 f0 (p1 ++ (xl, a) :: (xr, b) :: p2)
      = (b - a) / (xr - xl) * (x - xl) + a.
Proof.
  induction p1 as [|[x1 f1] p1 IH]; intros x0 f0 Hp1 Hl Hr.
  - cbn [app interp_from].
    rewrite (proj2 (Qltb_ge _ _) Hl), (proj2 (Qltb_lt _ _) Hr). reflexivity.
  - inversion Hp1 as [|? ? Hx1 Hp1']; subst. cbn [fst] in Hx1.
    cbn [app interp_from]. rewrite (proj2 (Qltb_ge _ _) Hx1).
    apply IH; assumption.
Qed.

Lemma np_interp_segment (x xl a xr b : Q) (p1 p2 : list (Q * Q)) :
  Forall (fun p => fst p <= x) p1 -> xl <= x -> x < xr ->
  np_interp x (p1 ++ (xl, a) :: (xr, b) :: p2)
    = (b - a) / (xr - xl) * (x - xl) + a.
Proof.
  intros Hp1 Hl Hr. destruct p1 as [|[x0 f0] p1].
  - cbn [app np_interp interp_from].
    rewrite (proj2 (Qltb_ge _ _) Hl), (proj2 (Qltb_lt _ _) Hr). reflexivity.
  - inversion Hp1 as [|? ? Hx0 Hp1']; subst. cbn [fst] in Hx0.
    cbn [app np_interp]. rewrite (proj2 (Qltb_ge _ _) Hx0).
    apply interp_from_segment; assumption.
Qed.



Lemma Forall_le_of_lt (x y : Q) (pts : list (Q * Q)) :
  y <= x -> Forall (fun p => fst p < y) pts -> Forall (fun p => fst p <= x) pts.
Proof.
  intros Hyx Hlt. eapply Forall_impl; [exact Hlt|].
  intros p Hp. cbn beta in Hp. lra.
Qed.

Lemma valid_from_nonempty (values : list fval) :
  forall k i q, values !! i = Some (Fin q) -> valid_from k values <> [].
Proof.
  induction values as [|v values IH]; intros k i q Hi; [discriminate|].
  destruct i as [|i].
  - injection Hi as ->. discriminate.
  - destruct v; try discriminate; exact (IH _ _ _ Hi).
Qed.

Lemma mask_any (values : list fval) (t : nat) (v : fval) :
  values !! t = Some v -> isfinite v = false ->
  existsb (fun b => b) (map (fun v => negb (isfinite v)) values) = true.
Proof.
  intros Ht Hv. apply existsb_exists. exists true. split; [|reflexivity].
  apply in_map_iff. exists v. split; [rewrite Hv; reflexivity|].
  apply list_elem_of_In, list_elem_of_lookup. eauto.
Qed.

(** With a gap somewhere and a finite sample somewhere, [_interp_nans]
    takes its last branch. *)
Lemma interp_nans_fill (values : list fval) (t i : nat) (v : fval) (q : Q) :
  values !! t = Some v -> isfinite v = false ->
  values !! i = Some (Fin q) ->
  _interp_nans values = fill_from 0 (valid_from 0 values) values.
Proof.
  intros Ht Hv Hi. unfold _interp_nans.
  rewrite (mask_any _ _ _ Ht Hv). cbn [negb].
  pose proof (valid_from_nonempty values 0 i q Hi) as Hne.
  destruct (valid_from 0 values); [congruence|reflexivity].
Qed.



Lemma gap_lookup (pre gap rest : list fval) (head : fval) (t : nat) :
  (t < length gap)%nat ->
  (pre ++ head :: gap ++ rest) !! (length pre + 1 + t)%nat = gap !! t.
Proof.
  intros Ht. rewrite lookup_app_r by lia.
  replace (length pre + 1 + t - length pre)%nat with (S t) by lia.
  cbn [lookup list_lookup]. apply lookup_app_l. exact Ht.
Qed.

Lemma nonfinite_lookup (gap : list fval) (t : nat) :
  Forall (fun v => isfinite v = false) gap -> (t < length gap)%nat ->
  exists v, gap !! t = Some v /\ isfinite v = false.
Proof.
  intros Hall Ht. destruct (lookup_lt_is_Some_2 gap t Ht) as [v Hv].
  exists v. split; [exact Hv|]. exact (proj1 (Forall_lookup _ _) Hall t v Hv).
Qed.

(** A gap between two finite samples is filled along the straight line
    through them. *)
Lemma interp_nans_gap (pre gap post : list fval) (a b : Q) (t : nat) :
  Forall (fun v => isfinite v = false) gap -> (t < length gap)%nat ->
  let l := inject_Z (Z.of_nat (length pre)) in
  let r := inject_Z (Z.of_nat (length pre + 1 + length gap)) in
  let i := inject_Z (Z.of_nat (length pre + 1 + t)) in
  _interp_nans (pre ++ Fin a :: gap ++ Fin b :: post)
    !! (length pre + 1 + t)%nat
  = Some ((b - a) / (r - l) * (i - l) + a).
Proof.
  intros Hgap Ht l r i.
  set (values := pre ++ Fin a :: gap ++ Fin b :: post).
  destruct (nonfinite_lookup gap t Hgap Ht) as (v & Hv & Hnf).
  assert (Hat : values !! (length pre + 1 + t)%nat = Some v)
    by (unfold values; rewrite gap_lookup by exact Ht; exact Hv).
  assert (Hfin : values !! length pre = Some (Fin a)).
  { unfold values. rewrite lookup_app_r by lia.
    rewrite Nat.sub_diag. reflexivity. }
  rewrite (interp_nans_fill values _ _ v a Hat Hnf Hfin).
  rewrite fill_from_lookup, Hat. cbn [Nat.add].
  assert (Hvalid : valid_from 0 values
            = valid_from 0 pre ++ (l, a) :: (r, b)
                :: valid_from (S (length pre + 1 + length gap)) post).
  { unfold values. rewrite valid_from_app. cbn [valid_from Nat.add].
    rewrite valid_from_app, (valid_from_nonfinite _ Hgap). cbn [app valid_from].
    replace (S (length pre) + length gap)%nat
      with (length pre + 1 + length gap)%nat by lia.
    reflexivity. }
  rewrite Hvalid.
  rewrite np_interp_segment.
  - destruct v; try discriminate; reflexivity.
  - apply (Forall_le_of_lt _ l); [apply inject_nat_le; lia|].
    apply (valid_from_bound pre 0).
  - apply inject_nat_le. lia.
  - apply inject_nat_lt. lia.
Qed.



(** The series [[1, NaN, NaN, 4]] is filled to [[1, 2, 3, 4]]. *)
Example interp_nans_ramp :
  Forall2 Qeq (_interp_nans [Fin 1; NaN; NaN; Fin 4]) [1; 2; 3; 4].
Proof. repeat constructor. Qed.

(** A series that starts and ends in a gap is extended by its first and
    last finite samples. *)
Example interp_nans_ends :
  Forall2 Qeq (_interp_nans [NaN; Fin 1; NaN; Fin 3; PInf]) [1; 1; 2; 3; 3].
Proof. repeat constructor. Qed.

End SmoothFacts.

(** ** Geometry: boxes, the crop transform and the decoding pipeline *)

Module GeometryExtras.
Import OnnxVitpose OnnxDecode OnnxVitposeFacts.

(** The third point is [b] plus the vector [a - b] turned by a right
    angle: the corner at [b] is a right angle with two equal sides, and the
    three points are collinear only when [a] and [b] coincide. *)
Theorem third_point_right_isosceles (a b : vec2) :
  let p := _get_3rd_point a b in
  let u := vsub a b in
  let v := vsub p b in
  fst u * fst v + snd u * snd v == 0 /\
  fst v * fst v + snd v * snd v == fst u * fst u + snd u * snd u /\
  det3 a b p == - (fst u * fst u + snd u * snd u).
Proof.
  destruct a as [ax ay], b as [bx by_].
  unfold _get_3rd_point, det3, vsub, vadd. cbn [fst snd].
  split; [ring|]. split; ring.
Qed.

Ltac affine_field Hs Hd :=
  unfold veq, _affine_transform, _get_affine_transform, getAffineTransform,
    affine_row, det3, _get_3rd_point, _get_dir, rot0, vadd, vsub, vmul,
    PIXEL_STD;
  cbn [fst snd];
  repeat split; field; repeat split; try assumption; try discriminate;
  intros Hz;
  first
    [ apply Hd; apply (sq_nonzero_cancel (-1 # 4)); [discriminate|];
      rewrite <- Hz; ring
    | apply Hs; apply (sq_nonzero_cancel (-10000)); [discriminate|];
      rewrite <- Hz; ring ].

Lemma affine_forward_form (center scale output_size shift p : vec2) :
  ~ fst scale == 0 -> ~ fst output_size == 0 ->
  let k := fst output_size / (fst scale * PIXEL_STD) in
  let cx := fst center + fst scale * PIXEL_STD * fst shift in
  let cy := snd center + snd scale * PIXEL_STD * snd shift in
  veq (_affine_transform p
         (_get_affine_transform center scale rot0 output_size shift false))
      (fst output_size * (1 # 2) + k * (fst p - cx),
       snd output_size * (1 # 2) + k * (snd p - cy)).
Proof.
  destruct center as [cx cy], scale as [sx sy], output_size as [dw dh],
    shift as [hx hy], p as [px py].
  cbn [fst snd]. intros Hs Hd. affine_field Hs Hd.
Qed.

Lemma affine_inverse_form (center scale output_size shift p : vec2) :
  ~ fst scale == 0 -> ~ fst output_size == 0 ->
  let k := fst output_size / (fst scale * PIXEL_STD) in
  let cx := fst center + fst scale * PIXEL_STD * fst shift in
  let cy := snd center + snd scale * PIXEL_STD * snd shift in
  veq (_affine_transform p
         (_get_affine_transform center scale rot0 output_size shift true))
      (cx + (fst p - fst output_size * (1 # 2)) / k,
       cy + (snd p - snd output_size * (1 # 2)) / k).
Proof.
  destruct center as [cx cy], scale as [sx sy], output_size as [dw dh],
    shift as [hx hy], p as [px py].
  cbn [fst snd]. intros Hs Hd. affine_field Hs Hd.
Qed.

(** With rotation 0 the forward transform is a uniform scaling by
    [k = dst_w / (200 * scale_x)] that sends the (shifted) centre to the
    centre of the output; the inverse transform scales by [1 / k] and sends
    the centre of the output back. *)
Theorem affine_transform_similarity
    (center scale output_size shift p : vec2) :
  ~ fst scale == 0 -> ~ fst output_size == 0 ->
  let k := fst output_size / (fst scale * PIXEL_STD) in
  let cx := fst center + fst scale * PIXEL_STD * fst shift in
  let cy := snd center + snd scale * PIXEL_STD * snd shift in
  veq (_affine_transform p
         (_get_affine_transform center scale rot0 output_size shift false))
      (fst output_size * (1 # 2) + k * (fst p - cx),
       snd output_size * (1 # 2) + k * (snd p - cy)) /\
  veq (_affine_transform p
         (_get_affine_transform center scale rot0 output_size shift true))
      (cx + (fst p - fst output_size * (1 # 2)) / k,
       cy + (snd p - snd output_size * (1 # 2)) / k).
Proof.
  intros Hs Hd. split.
  - apply affine_forward_form; assumption.
  - apply affine_inverse_form; assumption.
Qed.

Lemma affine_transform_similarity_witness :
  veq (_affine_transform (100, 120)
         (_get_affine_transform (100, 120) (1, 4 # 3) rot0 (192, 256)
            (0, 0) false))
      (192 * (1 # 2) + 192 / (1 * PIXEL_STD) * (100 - (100 + 1 * PIXEL_STD * 0)),
       256 * (1 # 2) + 192 / (1 * PIXEL_STD) * (120 - (120 + (4 # 3) * PIXEL_STD * 0))).
Proof.
  apply (affine_transform_similarity (100, 120) (1, 4 # 3) (192, 256) (0, 0)
           (100, 120)); cbn [fst]; intros H; discriminate H.
Defined.

Lemma np_maximum_ge (a b : Q) : a <= np_maximum a b /\ b <= np_maximum a b.
Proof.
  unfold np_maximum. destruct (Qltb a b) eqn:E.
  - apply Qltb_lt in E. split; lra.
  - apply Qltb_ge in E. split; lra.
Qed.

(** Every four-entry box gives a centre and a scale with both scale
    components at least [1.25e-3]. *)
Lemma box_scale_positive (x y w h : Q) :
  exists c s,
    _box_to_center_scale [x; y; w; h] = Ok (c, s) /\
    1 # 800 <= fst s /\ 1 # 800 <= snd s.
Proof.
  destruct (Qltb w box_eps || Qltb h box_eps) eqn:E.
  - exists (0, 0), (1, 1). unfold _box_to_center_scale. rewrite E.
    split; [reflexivity|]. split; discriminate.
  - apply orb_false_iff in E. destruct E as [Ew Eh].
    apply Qltb_ge in Ew, Eh.
    destruct (box_to_center_scale_regular x y w h Ew Eh)
      as (c & s & Hres & _ & w' & h' & _ & _ & _ & _ & Hs).
    exists c, s. split; [exact Hres|]. subst s. cbn [fst snd].
    unfold scale_floor, SCALE_FACTOR.
    pose proof (np_maximum_ge (w' / PIXEL_STD) (1 # 1000)) as [_ H1].
    pose proof (np_maximum_ge (h' / PIXEL_STD) (1 # 1000)) as [_ H2].
    split; lra.
Qed.

(** Whatever the box, the crop transform built from its centre and scale
    for the network input size can be undone: forward then inverse is the
    identity, and so is inverse then forward. *)
Theorem box_transform_invertible (x y w h : Q) (p : vec2) :
  exists c s,
    _box_to_center_scale [x; y; w; h] = Ok (c, s) /\
    let fwd := _get_affine_transform c s rot0 POSE_INPUT_SIZE (0, 0) false in
    let inv := _get_affine_transform c s rot0 POSE_INPUT_SIZE (0, 0) true in
    veq (_affine_transform (_affine_transform p fwd) inv) p /\
    veq (_affine_transform (_affine_transform p inv) fwd) p.
Proof.
  destruct (box_scale_positive x y w h) as (c & s & Hres & Hsx & _).
  exists c, s. split; [exact Hres|]. cbn zeta.
  assert (Hs : ~ fst s == 0) by (intros E; rewrite E in Hsx; lra).
  assert (Hd : ~ fst POSE_INPUT_SIZE == 0) by discriminate.
  set (fwd := _get_affine_transform c s rot0 POSE_INPUT_SIZE (0, 0) false).
  set (inv := _get_affine_transform c s rot0 POSE_INPUT_SIZE (0, 0) true).
  assert (Hk : ~ fst POSE_INPUT_SIZE / (fst s * PIXEL_STD) == 0).
  { intros E. apply Hd.
    assert (E' : fst POSE_INPUT_SIZE
                 == fst POSE_INPUT_SIZE / (fst s * PIXEL_STD) * (fst s * PIXEL_STD)).
    { field. split; [discriminate|exact Hs]. }
    rewrite E', E. ring. }
  split.
  - destruct (affine_forward_form c s POSE_INPUT_SIZE (0, 0) p Hs Hd)
      as [Fx Fy].
    destruct (affine_inverse_form c s POSE_INPUT_SIZE (0, 0)
                (_affine_transform p fwd) Hs Hd) as [Ix Iy].
    fold fwd in Fx, Fy. fold fwd inv in Ix, Iy. cbn [fst snd] in *.
    split; cbn [fst snd].
    + rewrite Ix, Fx. field. repeat split; first [exact Hs | exact Hd | discriminate].
    + rewrite Iy, Fy. field. repeat split; first [exact Hs | exact Hd | discriminate].
  - destruct (affine_inverse_form c s POSE_INPUT_SIZE (0, 0) p Hs Hd)
      as [Ix Iy].
    destruct (affine_forward_form c s POSE_INPUT_SIZE (0, 0)
                (_affine_transform p inv) Hs Hd) as [Fx Fy].
    fold inv in Ix, Iy. fold inv fwd in Fx, Fy. cbn [fst snd] in *.
    split; cbn [fst snd].
    + rewrite Fx, Ix. field. repeat split; first [exact Hs | exact Hd | discriminate].
    + rewrite Fy, Iy. field. repeat split; first [exact Hs | exact Hd | discriminate].
Qed.



Lemma mapM_lookup {A B : Type} (f : A -> result B) (l : list A) :
  (forall a, a ∈ l -> exists b, f a = Ok b) ->
  exists out,
    mapM f l = Ok out /\ length out = length l /\
    forall i a, l !! i = Some a ->
      exists b, f a = Ok b /\ out !! i = Some b.
Proof.
  induction l as [|a l IH]; intros Hall.
  - exists []. split; [reflexivity|]. split; [reflexivity|]. intros i a [=].
  - destruct (Hall a) as [b Hb]; [left|].
    destruct IH as (out & Hout & Hlen & Hat).
    { intros a' Ha'. apply Hall. right. exact Ha'. }
    exists (b :: out). cbn [mapM]. rewrite Hb. cbn [bind]. rewrite Hout.
    cbn [bind]. split; [reflexivity|]. split; [cbn; lia|].
    intros [|i] a' Hi.
    + injection Hi as <-. exists b. split; [exact Hb|reflexivity].
    + exact (Hat i a' Hi).
Qed.

(** Corner boxes in, centres out: for a batch of rows [[x0, y0, x1, y1]],
    [_box_xywh] keeps the number of boxes and turns each row into
    [[x0, y0, x1 - x0, y1 - y0]]; when the box is at least [1e-6] wide and
    high, [_box_to_center_scale] of that row has the midpoint of the two
    corners as its centre. *)
Theorem box_xywh_center_is_midpoint
    (boxes : list (list Q)) (i : nat) (x0 y0 x1 y1 : Q) :
  Forall (fun row => length row = 4%nat) boxes ->
  boxes !! i = Some [x0; y0; x1; y1] ->
  box_eps <= x1 - x0 -> box_eps <= y1 - y0 ->
  exists out c s,
    _box_xywh boxes = Ok out /\ length out = length boxes /\
    out !! i = Some [x0; y0; x1 - x0; y1 - y0] /\
    _box_to_center_scale [x0; y0; x1 - x0; y1 - y0] = Ok (c, s) /\
    veq c ((x0 + x1) * (1 # 2), (y0 + y1) * (1 # 2)).
Proof.
  intros Hshape Hi Hw Hh.
  destruct (mapM_lookup
              (fun row => match row with
                          | x0 :: y0 :: x1 :: y1 :: rest =>
                              Ok (x0 :: y0 :: (x1 - x0) :: (y1 - y0) :: rest)
                          | _ => Raise IndexError
                          end) boxes) as (out & Hout & Hlen & Hat).
  { intros row Hrow. pose proof (proj1 (Forall_forall _ _) Hshape row Hrow) as L.
    destruct row as [|a [|b [|c [|d rest]]]]; try discriminate. eauto. }
  destruct (Hat i _ Hi) as (b & Hb & Hbi). injection Hb as <-.
  destruct (box_to_center_scale_regular x0 y0 (x1 - x0) (y1 - y0) Hw Hh)
    as (c & s & Hres & Hc & _).
  exists out, c, s. split; [exact Hout|]. split; [exact Hlen|].
  split; [exact Hbi|]. split; [exact Hres|].
  subst c. split; cbn [fst snd]; ring.
Qed.

Lemma box_xywh_center_is_midpoint_witness :
  exists out c s,
    _box_xywh [[10; 20; 60; 120]] = Ok out /\ length out = 1%nat /\
    out !! 0%nat = Some [10; 20; 60 - 10; 120 - 20] /\
    _box_to_center_scale [10; 20; 60 - 10; 120 - 20] = Ok (c, s) /\
    veq c ((10 + 60) * (1 # 2), (20 + 120) * (1 # 2)).
Proof.
  apply (box_xywh_center_is_midpoint [[10; 20; 60; 120]] 0 10 20 60 120).
  - repeat constructor.
  - reflexivity.
  - discriminate.
  - discriminate.
Defined.

(** *** Size of the refinement step *)

Lemma np_sign_abs (q : Q) : Qabs (np_sign q) <= 1.
Proof.
  unfold np_sign. destruct q as [n d]. cbn [Qnum].
  destruct n; cbn; discriminate.
Qed.

(** [_refine] keeps the shape of the coordinates and moves no coordinate
    by more than a quarter of a heat-map pixel. *)
Theorem refine_moves_at_most_quarter (coords : coords_t) (hm : heatmaps_t) :
  (c_n coords <= hm_n hm)%nat -> (c_k coords <= hm_k hm)%nat ->
  exists out,
    _refine coords hm = Ok out /\
    c_n out = c_n coords /\ c_k out = c_k coords /\
    forall i j,
      Qabs (fst (c_at out i j) - fst (c_at coords i j)) <= 1 # 4 /\
      Qabs (snd (c_at out i j) - snd (c_at coords i j)) <= 1 # 4.
Proof.
  intros Hn Hk.
  destruct (refine_rows_spec hm (c_k coords) (seq 0 (c_n coords)) Hk)
    with (c := c_at coords) as (c' & Hfold & Hin & Hout).
  { intros i Hi. apply in_seq in Hi. lia. }
  { apply NoDup_seq. }
  eexists. unfold _refine. rewrite Hfold. cbn [bind].
  split; [reflexivity|]. cbn [c_n c_k c_at].
  split; [reflexivity|]. split; [reflexivity|].
  intros i j.
  assert (Hzero : forall q : Q, Qabs (q - q) <= 1 # 4).
  { intros q. assert (E : q - q == 0) by ring. rewrite E. discriminate. }
  destruct (decide ((i < c_n coords)%nat /\ (j < c_k coords)%nat)) as [[Hi Hj]|Hno].
  - rewrite Hin by (try apply in_seq; lia). unfold refined.
    destruct (_ && _ && _ && _)%bool; cbn [fst snd]; [|split; apply Hzero].
    assert (Hstep : forall v s : Q, Qabs s <= 1 ->
              Qabs (v + s * (1 # 4) - v) <= 1 # 4).
    { intros v s Hs. assert (E : v + s * (1 # 4) - v == s * (1 # 4)) by ring.
      rewrite E, Qabs_Qmult. change (Qabs (1 # 4)) with (1 # 4).
      pose proof (Qabs_nonneg s). nra. }
    split; apply Hstep, np_sign_abs.
  - rewrite Hout; [split; apply Hzero|].
    intros [Hi Hj]. apply in_seq in Hi. apply Hno. split; lia.
Qed.

Lemma refine_moves_at_most_quarter_witness :
  exists out,
    _refine centre_coords ramp_heatmaps = Ok out /\
    Qabs (fst (c_at out 0%nat 0%nat) - fst (c_at centre_coords 0%nat 0%nat))
      <= 1 # 4.
Proof.
  destruct (refine_moves_at_most_quarter centre_coords ramp_heatmaps)
    as (out & Hok & _ & _ & Hat); [cbn; lia | cbn; lia |].
  exists out. split; [exact Hok|]. apply (Hat 0%nat 0%nat).
Defined.

(** *** Mapping predictions back to the image *)

Lemma foldM_app {A B : Type} (f : A -> B -> result A) (l1 l2 : list B) (a : A) :
  foldM f (l1 ++ l2) a = bind (foldM f l1 a) (foldM f l2).
Proof.
  revert a. induction l1 as [|b l1 IH]; intros a; cbn [app foldM bind].
  - reflexivity.
  - destruct (f a b) as [a'|e]; cbn [bind]; [apply IH|reflexivity].
Qed.

Lemma update_row_spec (g : vec2 -> vec2) (i : nat) (js : list nat) :
  NoDup js ->
  forall c : nat -> nat -> vec2,
    let c' := fold_left (fun c j => upd c i j (g (c i j))) js c in
    (forall j, In j js -> c' i j = g (c i j)) /\
    (forall i' j', ~ (i' = i /\ In j' js) -> c' i' j' = c i' j').
Proof.
  induction js as [|j js IH]; intros Hnd c; cbn [fold_left].
  - split; [intros ? []|reflexivity].
  - inversion Hnd as [|? ? Hnotin Hnd']; subst.
    rewrite list_elem_of_In in Hnotin.
    destruct (IH Hnd' (upd c i j (g (c i j)))) as [Hin Hout].
    assert (Hupd_same : upd c i j (g (c i j)) i j = g (c i j))
      by (unfold upd; rewrite !Nat.eqb_refl; reflexivity).
    assert (Hupd_other : forall i' j', ~ (i' = i /\ j' = j) ->
              upd c i j (g (c i j)) i' j' = c i' j').
    { intros i' j' Hne. unfold upd.
      destruct (Nat.eqb_spec i' i); destruct (Nat.eqb_spec j' j);
        cbn [andb]; try reflexivity. tauto. }
    split.
    + intros j' [<-|Hj'].
      * rewrite Hout by tauto. exact Hupd_same.
      * rewrite Hin by exact Hj'. rewrite Hupd_other; [reflexivity|].
        intros [_ ->]. contradiction.
    + intros i' j' Hne. rewrite Hout by (cbn in Hne; tauto).
      apply Hupd_other. cbn in Hne. intros [-> ->]. tauto.
Qed.

Lemma transform_rows_spec (centers scales : list vec2) (output_size : vec2)
    (k : nat) (rows : list nat) :
  (forall i, In i rows -> (i < length centers)%nat /\ (i < length scales)%nat) ->
  NoDup rows ->
  forall c : nat -> nat -> vec2,
  exists c',
    foldM (fun c i =>
             match centers !! i with
             | None => Raise IndexError
             | Some center =>
                 match scales !! i with
                 | None => Raise IndexError
                 | Some scale =>
                     let trans :=
                       _get_affine_transform center scale rot0 output_size
                         (0, 0) true in
                     Ok (fold_left
                           (fun c j => upd c i j (_affine_transform (c i j) trans))
                           (seq 0 k) c)
                 end
             end) rows c = Ok c' /\
    (forall i j, In i rows -> (j < k)%nat ->
       c' i j = inverse_at centers scales output_size i (c i j)) /\
    (forall i j, ~ (In i rows /\ (j < k)%nat) -> c' i j = c i j).
Proof.
  induction rows as [|i rows IH]; intros Hrows Hnd c.
  - exists c. split; [reflexivity|]. split; [intros ? ? []|reflexivity].
  - inversion Hnd as [|? ? Hnotin Hnd']; subst.
    rewrite list_elem_of_In in Hnotin.
    destruct (Hrows i (or_introl eq_refl)) as [Hc Hs].
    destruct (lookup_lt_is_Some_2 centers i Hc) as [center Ecenter].
    destruct (lookup_lt_is_Some_2 scales i Hs) as [scale Escale].
    set (trans := _get_affine_transform center scale rot0 output_size (0, 0) true).
    destruct (update_row_spec (fun v => _affine_transform v trans) i (seq 0 k)
                (NoDup_seq 0 k) c) as [Hin1 Hout1].
    set (c1 := fold_left
                 (fun c j => upd c i j (_affine_transform (c i j) trans))
                 (seq 0 k) c) in *.
    destruct (IH (fun i' H => Hrows i' (or_intror H)) Hnd' c1)
      as (c' & Hfold & Hin & Hout).
    exists c'. cbn [foldM]. rewrite Ecenter, Escale. cbn [bind].
    fold trans. fold c1. split; [exact Hfold|]. split.
    + intros i' j [<-|Hi'] Hj.
      * rewrite Hout by tauto. rewrite Hin1 by (apply in_seq; lia).
        unfold inverse_at. rewrite Ecenter, Escale. reflexivity.
      * rewrite Hin by assumption. rewrite Hout1; [reflexivity|].
        intros [-> _]. contradiction.
    + intros i' j Hne. rewrite Hout by (cbn in Hne; tauto).
      apply Hout1. cbn in Hne. intros [-> Hj]. apply in_seq in Hj.
      apply Hne. split; [tauto|lia].
Qed.

Lemma transform_preds_ok
    (coords : coords_t) (centers scales : list vec2) (output_size : vec2) :
  (c_n coords <= length centers)%nat -> (c_n coords <= length scales)%nat ->
  exists out,
    _transform_preds coords centers scales output_size = Ok out /\
    c_n out = c_n coords /\ c_k out = c_k coords /\
    forall i j center scale,
      (i < c_n coords)%nat -> (j < c_k coords)%nat ->
      centers !! i = Some center -> scales !! i = Some scale ->
      c_at out i j =
        _affine_transform (c_at coords i j)
          (_get_affine_transform center scale rot0 output_size (0, 0) true).
Proof.
  intros Hc Hs.
  destruct (transform_rows_spec centers scales output_size (c_k coords)
              (seq 0 (c_n coords))) with (c := c_at coords)
    as (c' & Hfold & Hin & _).
  { intros i Hi. apply in_seq in Hi. lia. }
  { apply NoDup_seq. }
  eexists. unfold _transform_preds. cbv zeta in Hfold |- *.
  rewrite Hfold. cbn [bind].
  split; [reflexivity|]. cbn [c_n c_k c_at].
  split; [reflexivity|]. split; [reflexivity|].
  intros i j center scale Hi Hj Ecenter Escale.
  rewrite Hin by (try apply in_seq; lia).
  unfold inverse_at. rewrite Ecenter, Escale. reflexivity.
Qed.

(** [_transform_preds].  With a centre and a scale for every sample, every
    entry [coords[i, j]] is replaced by its image under the inverse crop
    transform of sample [i], independently of the other entries; when the
    list of centres or of scales is shorter than the batch, the call raises
    [IndexError]. *)
Theorem transform_preds_spec
    (coords : coords_t) (centers scales : list vec2) (output_size : vec2) :
  ((c_n coords <= length centers)%nat -> (c_n coords <= length scales)%nat ->
   exists out,
     _transform_preds coords centers scales output_size = Ok out /\
     c_n out = c_n coords /\ c_k out = c_k coords /\
     forall i j center scale,
       (i < c_n coords)%nat -> (j < c_k coords)%nat ->
       centers !! i = Some center -> scales !! i = Some scale ->
       c_at out i j =
         _affine_transform (c_at coords i j)
           (_get_affine_transform center scale rot0 output_size (0, 0) true)) /\
  ((length centers < c_n coords)%nat \/ (length scales < c_n coords)%nat ->
   _transform_preds coords centers scales output_size = Raise IndexError).
Proof.
  split.
  - apply transform_preds_ok.
  - intros Hshort.
    set (m := Nat.min (length centers) (length scales)).
    assert (Hm : (m < c_n coords)%nat) by (unfold m; lia).
    unfold _transform_preds. cbv zeta.
    replace (seq 0 (c_n coords))
      with (seq 0 (m + S (c_n coords - S m))) by (f_equal; lia).
    rewrite seq_app, foldM_app.
    destruct (transform_rows_spec centers scales output_size (c_k coords)
                (seq 0 m)) with (c := c_at coords) as (c' & Hfold & _).
    { intros i Hi. apply in_seq in Hi. unfold m in Hi. lia. }
    { apply NoDup_seq. }
    cbv zeta in Hfold. rewrite Hfold. cbn [bind seq foldM Nat.add].
    destruct (centers !! m) as [center|] eqn:Ec; [|reflexivity].
    destruct (scales !! m) as [scale|] eqn:Es; [|reflexivity].
    apply lookup_lt_Some in Ec, Es. unfold m in Ec, Es. lia.
Qed.

Lemma transform_preds_spec_witness :
  exists out,
    _transform_preds centre_coords [(100, 120)] [(1, 4 # 3)] (192, 256) = Ok out /\
    veq (c_at out 0%nat 0%nat) (25 # 12, -45 # 4).
Proof.
  destruct (proj1 (transform_preds_spec centre_coords [(100, 120)] [(1, 4 # 3)]
                     (192, 256))) as (out & Hok & _ & _ & Hat);
    [cbn; lia | cbn; lia |].
  exists out. split; [exact Hok|].
  rewrite (Hat 0%nat 0%nat (100, 120) (1, 4 # 3));
    [|cbn; lia|cbn; lia|reflexivity|reflexivity].
  split; reflexivity.
Defined.

(** *** The whole decoding pipeline *)

Lemma max_preds_ok (hm : heatmaps_t) :
  (0 < hm_n hm)%nat -> (0 < hm_k hm)%nat ->
  (0 < hm_h hm)%nat -> (0 < hm_w hm)%nat ->
  exists preds,
    _max_preds hm = Ok (preds, fun i j => np_max (reshaped hm i j)) /\
    c_n preds = hm_n hm /\ c_k preds = hm_k hm.
Proof.
  intros Hn Hk Hh Hw. unfold _max_preds.
  replace ((hm_n hm * hm_k hm =? 0) || (hm_h hm * hm_w hm =? 0))%nat with false.
  - eexists. split; [reflexivity|]. split; reflexivity.
  - symmetry. apply orb_false_iff. split; apply Nat.eqb_neq; nia.
Qed.

(** [_decode_poses] on a batch with a non-empty grid and a centre and a
    scale for every sample: the call returns; the shape is that of the
    batch; the confidences are the raw maxima of [_max_preds]; and the
    coordinate of joint [j] of sample [i] is the refined arg-max [(rx, ry)],
    taken as a fraction of the grid and measured from its middle, scaled by
    the crop width [200 * scale_x] in x and by 4/3 of the crop width in y,
    and moved to the centre of the box. *)
Theorem decode_poses_spec
    (hm : heatmaps_t) (centers scales : list vec2) (i j : nat) :
  (0 < hm_h hm)%nat -> (0 < hm_w hm)%nat ->
  (i < hm_n hm)%nat -> (j < hm_k hm)%nat ->
  (hm_n hm <= length centers)%nat -> (hm_n hm <= length scales)%nat ->
  exists preds maxvals coords conf center scale,
    _max_preds hm = Ok (preds, maxvals) /\
    _decode_poses hm centers scales = Ok (coords, conf) /\
    centers !! i = Some center /\ scales !! i = Some scale /\
    c_n coords = hm_n hm /\ c_k coords = hm_k hm /\
    conf = maxvals /\
    (~ fst scale == 0 ->
     let r := refined hm i j (c_at preds i j) in
     let W := inject_Z (Z.of_nat (hm_w hm)) in
     let H := inject_Z (Z.of_nat (hm_h hm)) in
     veq (c_at coords i j)
         (fst center + (fst r / W - (1 # 2)) * (PIXEL_STD * fst scale),
          snd center
          + (snd r / H - (1 # 2)) * ((4 # 3) * (PIXEL_STD * fst scale)))).
Proof.
  intros Hh Hw Hi Hj Hc Hs.
  assert (Hn0 : (0 < hm_n hm)%nat) by lia.
  assert (Hk0 : (0 < hm_k hm)%nat) by lia.
  destruct (max_preds_ok hm Hn0 Hk0 Hh Hw) as (preds & Hmax & Hn & Hk).
  destruct (refine_rows_spec hm (c_k preds) (seq 0 (c_n preds)))
    with (c := c_at preds) as (c1 & Hfold & Hin & _).
  { lia. }
  { intros i' Hi'. apply in_seq in Hi'. lia. }
  { apply NoDup_seq. }
  set (sx := fst POSE_INPUT_SIZE / inject_Z (Z.max 1 (Z.of_nat (hm_w hm)))).
  set (sy := snd POSE_INPUT_SIZE / inject_Z (Z.max 1 (Z.of_nat (hm_h hm)))).
  set (scaled := {| c_n := c_n preds; c_k := c_k preds;
                    c_at := fun i j => (fst (c1 i j) * sx, snd (c1 i j) * sy) |}).
  destruct (transform_preds_ok scaled centers scales POSE_INPUT_SIZE)
    as (out & Hout & Hon & Hok & Hat).
  { cbn [scaled c_n]. lia. }
  { cbn [scaled c_n]. lia. }
  assert (Hic : (i < length centers)%nat) by lia.
  assert (His : (i < length scales)%nat) by lia.
  destruct (lookup_lt_is_Some_2 centers i Hic) as [center Ecenter].
  destruct (lookup_lt_is_Some_2 scales i His) as [scale Escale].
  exists preds, (fun i j => np_max (reshaped hm i j)), out,
    (fun i j => np_max (reshaped hm i j)), center, scale.
  split; [exact Hmax|]. split.
  { unfold _decode_poses. rewrite Hmax. cbn [bind].
    unfold _refine. rewrite Hfold. cbn [bind c_n c_k c_at].
    fold sx sy. fold scaled. rewrite Hout. reflexivity. }
  split; [exact Ecenter|]. split; [exact Escale|].
  split; [cbn [scaled c_n] in Hon; congruence|].
  split; [cbn [scaled c_k] in Hok; congruence|].
  split; [reflexivity|].
  intros Hsc r W H.
  rewrite (Hat i j center scale) by (cbn [scaled c_n c_k]; first [lia|assumption]).
  cbn [scaled c_at].
  rewrite (Hin i j) by (try apply in_seq; lia). fold r.
  destruct (affine_inverse_form center scale POSE_INPUT_SIZE (0, 0)
              (fst r * sx, snd r * sy) Hsc ltac:(discriminate)) as [Ix Iy].
  cbn [fst snd] in Ix, Iy.
  assert (HW : ~ W == 0).
  { intros E. unfold W, Qeq, inject_Z in E. cbn [Qnum Qden] in E. lia. }
  assert (HH : ~ H == 0).
  { intros E. unfold H, Qeq, inject_Z in E. cbn [Qnum Qden] in E. lia. }
  assert (Esx : sx == 192 / W).
  { unfold sx, W. rewrite Z.max_r by lia. reflexivity. }
  assert (Esy : sy == 256 / H).
  { unfold sy, H. rewrite Z.max_r by lia. reflexivity. }
  split; cbn [fst snd].
  - rewrite Ix, Esx. unfold PIXEL_STD. cbn [POSE_INPUT_SIZE fst snd].
    field. repeat split; first [exact Hsc | exact HW | discriminate].
  - rewrite Iy, Esy. unfold PIXEL_STD. cbn [POSE_INPUT_SIZE fst snd].
    field. repeat split; first [exact Hsc | exact HH | discriminate].
Qed.

Lemma decode_poses_spec_witness :
  exists coords conf,
    _decode_poses one_hot_heatmaps [(100, 120)] [(3 # 5, 4 # 5)]
      = Ok (coords, conf) /\
    conf 0%nat 0%nat = 1 /\
    veq (c_at coords 0%nat 0%nat) (100, 280 # 3).
Proof.
  destruct (decode_poses_spec one_hot_heatmaps [(100, 120)] [(3 # 5, 4 # 5)] 0 0)
    as (preds & maxvals & coords & conf & center & scale & Hmax & Hdec & Hc & Hs
        & _ & _ & Hconf & Hval); try (cbn; lia).
  exists coords, conf. split; [exact Hdec|].
  injection Hmax as <- <-. injection Hc as <-. injection Hs as <-.
  split; [subst conf; reflexivity|].
  destruct Hval as [Hx Hy]; [discriminate|].
  cbn [fst snd] in Hx, Hy. split; cbn [fst snd].
  - rewrite Hx. reflexivity.
  - rewrite Hy. reflexivity.
Defined.

End GeometryExtras.

(** ** Normalised coordinates, pixels and colours *)

Module DrawingExtras.
Import Normalizer Exporter.

(** A pixel inside the frame is normalised into the square [-1, 1] x
    [-1, 1]; x grows to the right and y is flipped, so the top-left corner
    goes to (-1, 1) and the bottom-right corner to (1, -1). *)
Theorem normalize_point_range (x y width height : Q) :
  0 < width -> 0 < height ->
  0 <= x -> x <= width -> 0 <= y -> y <= height ->
  exists nx ny,
    _normalize_point x y width height = Ok (nx, ny) /\
    -1 <= nx /\ nx <= 1 /\ -1 <= ny /\ ny <= 1 /\
    (x == 0 -> nx == -1) /\ (x == width -> nx == 1) /\
    (y == 0 -> ny == 1) /\ (y == height -> ny == -1).
Proof.
  intros Hw Hh Hx0 Hx1 Hy0 Hy1.
  assert (Hwz : ~ width == 0) by (intros E; rewrite E in Hw; lra).
  assert (Hhz : ~ height == 0) by (intros E; rewrite E in Hh; lra).
  assert (Ew : Qeq_bool width 0 = false).
  { destruct (Qeq_bool width 0) eqn:E; [|reflexivity].
    apply Qeq_bool_iff in E. contradiction. }
  assert (Eh : Qeq_bool height 0 = false).
  { destruct (Qeq_bool height 0) eqn:E; [|reflexivity].
    apply Qeq_bool_iff in E. contradiction. }
  eexists _, _. unfold _normalize_point. rewrite Ew, Eh. cbn [orb].
  split; [reflexivity|].
  assert (Hfx : 0 <= x / width /\ x / width <= 1).
  { split.
    - apply Qle_shift_div_l; [exact Hw|]. lra.
    - apply Qle_shift_div_r; [exact Hw|]. lra. }
  assert (Hfy : 0 <= y / height /\ y / height <= 1).
  { split.
    - apply Qle_shift_div_l; [exact Hh|]. lra.
    - apply Qle_shift_div_r; [exact Hh|]. lra. }
  destruct Hfx as [Hfx0 Hfx1]. destruct Hfy as [Hfy0 Hfy1].
  repeat split; try lra.
  - intros E. rewrite E. field. exact Hwz.
  - intros E. rewrite E. field. exact Hwz.
  - intros E. rewrite E. field. exact Hhz.
  - intros E. rewrite E. field. exact Hhz.
Qed.

Lemma normalize_point_range_witness :
  exists nx ny,
    _normalize_point 160 120 640 480 = Ok (nx, ny) /\
    -1 <= nx /\ nx <= 1 /\ -1 <= ny /\ ny <= 1.
Proof.
  destruct (normalize_point_range 160 120 640 480)
    as (nx & ny & Hok & H1 & H2 & H3 & H4 & _);
    try reflexivity; try discriminate.
  exists nx, ny. auto.
Defined.

Lemma py_round_bounds (q : Q) (a b : Z) :
  inject_Z a <= q -> q <= inject_Z b -> (a <= py_round q <= b)%Z.
Proof.
  intros Ha Hb. unfold py_round.
  pose proof (Qfloor_le q) as Hfl.
  pose proof (Qlt_floor q) as Hfu.
  assert (Hfa : (a <= Qfloor q)%Z).
  { apply Qfloor_resp_le in Ha. rewrite Qfloor_Z in Ha. exact Ha. }
  assert (Hfb : (Qfloor q <= b)%Z).
  { apply Qfloor_resp_le in Hb. rewrite Qfloor_Z in Hb. exact Hb. }
  set (f := Qfloor q) in *.
  assert (Hup : 0 < q - inject_Z f -> (f + 1 <= b)%Z).
  { intros Hpos. assert (Hlt : inject_Z f < inject_Z b) by lra.
    rewrite <- Zlt_Qlt in Hlt. lia. }
  destruct (Qltb (q - inject_Z f) (1 # 2)) eqn:E1; [lia|].
  apply Qltb_ge in E1.
  destruct (Qltb (1 # 2) (q - inject_Z f)) eqn:E2.
  - assert (f + 1 <= b)%Z by (apply Hup; lra). lia.
  - destruct (Z.even f); [lia|].
    assert (f + 1 <= b)%Z by (apply Hup; lra). lia.
Qed.

(** A normalised point of the square [-1, 1] x [-1, 1] is drawn at a pixel
    with [0 <= x <= width] and [0 <= y <= height]. *)
Theorem denormalize_in_frame (nx ny : Q) (width height : Z) :
  -1 <= nx -> nx <= 1 -> -1 <= ny -> ny <= 1 ->
  (0 <= width)%Z -> (0 <= height)%Z ->
  let p := _denormalize {[ "x"%string := nx; "y"%string := ny ]}
             (inject_Z width) (inject_Z height) in
  (0 <= fst p <= width)%Z /\ (0 <= snd p <= height)%Z.
Proof.
  intros Hx0 Hx1 Hy0 Hy1 Hw Hh. unfold _denormalize.
  rewrite lookup_insert_eq.
  rewrite lookup_insert_ne by discriminate.
  rewrite lookup_singleton_eq. unfold default, from_option, id. cbn [fst snd].
  assert (HW : 0 <= inject_Z width) by (rewrite <- (Zle_Qle 0); exact Hw).
  assert (HH : 0 <= inject_Z height) by (rewrite <- (Zle_Qle 0); exact Hh).
  split; apply py_round_bounds; change (inject_Z 0) with 0; nra.
Qed.

Lemma denormalize_in_frame_witness :
  let p := _denormalize {[ "x"%string := -1 # 2; "y"%string := 1 ]}
             (inject_Z 640) (inject_Z 480) in
  (0 <= fst p <= 640)%Z /\ (0 <= snd p <= 480)%Z.
Proof.
  apply (denormalize_in_frame (-1 # 2) 1 640 480); try discriminate; lia.
Defined.

Lemma blend_between (c1 c2 : Z) (alpha : Q) :
  (0 <= c1 <= 255)%Z -> (0 <= c2 <= 255)%Z -> 0 <= alpha -> alpha <= 1 ->
  (0 <= blend c1 c2 alpha <= 255)%Z.
Proof.
  intros H1 H2 Ha0 Ha1. unfold blend.
  assert (Q1 : 0 <= inject_Z c1 /\ inject_Z c1 <= 255).
  { split; [rewrite <- (Zle_Qle 0)|rewrite <- (Zle_Qle _ 255)]; lia. }
  assert (Q2 : 0 <= inject_Z c2 /\ inject_Z c2 <= 255).
  { split; [rewrite <- (Zle_Qle 0)|rewrite <- (Zle_Qle _ 255)]; lia. }
  apply SmoothFacts.py_int_bounds;
    change (inject_Z 0) with 0; change (inject_Z 255) with 255; nra.
Qed.

Lemma blend_start (c1 c2 : Z) (alpha : Q) :
  alpha == 0 -> blend c1 c2 alpha = c1.
Proof.
  intros Ha. unfold blend.
  assert (E : inject_Z c1 + (inject_Z c2 - inject_Z c1) * alpha == inject_Z c1)
    by (rewrite Ha; ring).
  destruct (Z.le_gt_cases 0 c1) as [Hpos|Hneg].
  - rewrite SmoothFacts.py_int_nonneg
      by (rewrite E; rewrite <- (Zle_Qle 0); exact Hpos).
    rewrite (Qfloor_comp _ _ E). apply Qfloor_Z.
  - unfold py_int.
    assert (Hq : Qnum (inject_Z c1 + (inject_Z c2 - inject_Z c1) * alpha)
                 = (c1 * Zpos (Qden (inject_Z c1 + (inject_Z c2 - inject_Z c1) * alpha)))%Z).
    { unfold Qeq in E. cbn [inject_Z Qnum Qden] in E. lia. }
    rewrite Hq. apply Z.quot_mul. lia.
Qed.

(** [_spectral_color] always returns a valid RGB triple; any [t <= 0]
    gives the first colour of the gradient and any [t >= 1] the last. *)
Theorem spectral_color_rgb (t : Q) :
  let '(r, g, b) := _spectral_color t in
  ((0 <= r <= 255)%Z /\ (0 <= g <= 255)%Z /\ (0 <= b <= 255)%Z) /\
  (t <= 0 -> (r, g, b) = (99, 102, 241)%Z) /\
  (1 <= t -> (r, g, b) = (248, 250, 109)%Z).
Proof.
  unfold _spectral_color.
  set (t' := py_min (Smooth.py_max t 0) 1).
  assert (Ht' : 0 <= t' /\ t' <= 1 /\ (t <= 0 -> t' == 0) /\ (1 <= t -> t' == 1)).
  { unfold t', py_min, Smooth.py_max.
    destruct (Qltb t 0) eqn:E0.
    - apply Qltb_lt in E0. change (Qltb 1 0) with false. cbv iota.
      repeat split; try lra; intros; lra.
    - apply Qltb_ge in E0. destruct (Qltb 1 t) eqn:E1.
      + apply Qltb_lt in E1. repeat split; try lra; intros; lra.
      + apply Qltb_ge in E1. repeat split; try lra; intros; lra. }
  destruct Ht' as (Ht0 & Ht1 & Hlow & Hhigh).
  change (Z.of_nat (length COLOR_GRADIENT) - 1)%Z with 4%Z.
  set (idx := t' * inject_Z 4).
  assert (Hidx : 0 <= idx /\ idx <= 4)
    by (unfold idx; change (inject_Z 4) with 4; split; lra).
  pose proof (Qfloor_le idx) as Hfl.
  pose proof (Qlt_floor idx) as Hfu.
  assert (Hlo : (0 <= Qfloor idx <= 4)%Z).
  { split.
    - assert (H0 : inject_Z 0 <= idx) by (change (inject_Z 0) with 0; lra).
      apply Qfloor_resp_le in H0. rewrite Qfloor_Z in H0. exact H0.
    - assert (H4 : idx <= inject_Z 4) by (change (inject_Z 4) with 4; lra).
      apply Qfloor_resp_le in H4. rewrite Qfloor_Z in H4. exact H4. }
  remember (Qfloor idx) as lo eqn:Elo.
  assert (Ha : 0 <= idx - inject_Z lo /\ idx - inject_Z lo <= 1).
  { rewrite inject_Z_plus in Hfu. change (inject_Z 1) with 1 in Hfu.
    split; lra. }
  destruct Ha as [Ha0 Ha1].
  assert (Hcases : lo = 0%Z \/ lo = 1%Z \/ lo = 2%Z \/ lo = 3%Z \/ lo = 4%Z)
    by lia.
  assert (Hrange :
    (0 <= blend (fst (fst (nth (Z.to_nat lo) COLOR_GRADIENT (0, 0, 0)%Z)))
            (fst (fst (nth (Z.to_nat (Z.min 4 (lo + 1))) COLOR_GRADIENT (0, 0, 0)%Z)))
            (idx - inject_Z lo) <= 255)%Z /\
    (0 <= blend (snd (fst (nth (Z.to_nat lo) COLOR_GRADIENT (0, 0, 0)%Z)))
            (snd (fst (nth (Z.to_nat (Z.min 4 (lo + 1))) COLOR_GRADIENT (0, 0, 0)%Z)))
            (idx - inject_Z lo) <= 255)%Z /\
    (0 <= blend (snd (nth (Z.to_nat lo) COLOR_GRADIENT (0, 0, 0)%Z))
            (snd (nth (Z.to_nat (Z.min 4 (lo + 1))) COLOR_GRADIENT (0, 0, 0)%Z))
            (idx - inject_Z lo) <= 255)%Z).
  { destruct Hcases as [->|[->|[->|[->| ->]]]]; cbn [Z.to_nat Z.min nth fst snd];
      repeat split; apply blend_between;
      first [assumption | vm_compute; split; discriminate]. }
  split; [exact Hrange|]. split.
  - intros Hle. assert (Ei : idx == 0).
    { unfold idx. rewrite (Hlow Hle). reflexivity. }
    assert (El : lo = 0%Z).
    { rewrite Elo, (Qfloor_comp _ _ Ei). reflexivity. }
    rewrite El. cbn [Z.to_nat Z.min nth fst snd COLOR_GRADIENT Z.add].
    rewrite !blend_start by (rewrite Ei; reflexivity). reflexivity.
  - intros Hge. assert (Ei : idx == 4).
    { unfold idx. rewrite (Hhigh Hge). reflexivity. }
    assert (El : lo = 4%Z).
    { rewrite Elo, (Qfloor_comp _ _ Ei). reflexivity. }
    rewrite El. cbn [Z.to_nat Z.min nth fst snd COLOR_GRADIENT Z.add].
    rewrite !blend_start by (rewrite Ei; reflexivity). reflexivity.
Qed.

End DrawingExtras.

(** ** Temporal filters *)

Module SmoothExtras.
Import Smooth SmoothFacts.

Lemma math_pi_pos : 0 < math_pi.
Proof. reflexivity. Qed.

Lemma tau_over_dt_pos (cutoff dt : Q) :
  0 < cutoff -> 0 < dt -> 0 < 1 / (2 * math_pi * cutoff) / dt.
Proof.
  intros Hc Hdt. pose proof math_pi_pos as Hpi.
  assert (Hden : 0 < 2 * math_pi * cutoff) by nra.
  assert (Htau : 0 < 1 / (2 * math_pi * cutoff)).
  { apply Qlt_shift_div_l; [exact Hden|]. lra. }
  apply Qlt_shift_div_l; [exact Hdt|]. lra.
Qed.


Lemma div_monotone (t t' d d' : Q) :
  0 <= t' -> t' <= t -> 0 < d -> d <= d' -> t' / d' <= t / d.
Proof.
  intros Ht0 Ht Hd0 Hd.
  assert (Hz : 0 <= t / d) by (apply Qle_shift_div_l; lra).
  assert (Ez : t / d * d == t) by (field; lra).
  apply Qle_shift_div_r; [lra|].
  set (z := t / d) in *. nra.
Qed.

(** The smoothing factor of a positive cut-off frequency and a positive
    time step lies between 0 and 1, and it does not decrease when the
    cut-off or the time step grows: a faster signal or a lower frame rate
    is smoothed less.  The bounds are inclusive, as they are after the
    rounding of [float64], where the factor reaches 0 and 1 at extreme
    arguments. *)
Theorem alpha_range (cutoff cutoff' dt dt' : Q) :
  0 < cutoff -> cutoff <= cutoff' -> 0 < dt -> dt <= dt' ->
  0 <= _alpha cutoff dt /\
  _alpha cutoff dt <= _alpha cutoff' dt' /\
  _alpha cutoff' dt' <= 1.
Proof.
  intros Hc Hcc Hdt Hdd. unfold _alpha.
  pose proof math_pi_pos as Hpi.
  pose proof (tau_over_dt_pos cutoff dt Hc Hdt) as Hx.
  pose proof (tau_over_dt_pos cutoff' dt' ltac:(lra) ltac:(lra)) as Hx'.
  assert (Hmono : 1 / (2 * math_pi * cutoff') / dt'
                  <= 1 / (2 * math_pi * cutoff) / dt).
  { apply div_monotone; [| |exact Hdt|exact Hdd].
    - apply Qle_shift_div_l; [nra|lra].
    - apply div_monotone; [lra|lra|nra|nra]. }
  set (x := 1 / (2 * math_pi * cutoff) / dt) in *.
  set (x' := 1 / (2 * math_pi * cutoff') / dt') in *.
  split; [|split].
  - apply Qle_shift_div_l; lra.
  - apply div_monotone; lra.
  - apply Qle_shift_div_r; lra.
Qed.

Lemma alpha_range_witness :
  0 <= _alpha 1 (1 # 60) /\
  _alpha 1 (1 # 60) <= _alpha 2 (1 # 30) /\
  _alpha 2 (1 # 30) <= 1.
Proof.
  apply (alpha_range 1 2 (1 # 60) (1 # 30));
    vm_compute; first [reflexivity | discriminate].
Defined.






Lemma one_euro_loop_app (dt mc beta dc : Q) (r t : list Q) :
  forall prev dxp,
    exists prev' dxp',
      one_euro_loop dt mc beta dc (r ++ t) prev dxp
        = one_euro_loop dt mc beta dc r prev dxp
          ++ one_euro_loop dt mc beta dc t prev' dxp'.
Proof.
  induction r as [|v r IH]; intros prev dxp.
  - exists prev, dxp. reflexivity.
  - cbn [app one_euro_loop].
    set (dx_hat := _lowpass dxp ((v - prev) / dt) (_alpha dc dt)).
    set (p1 := _lowpass prev v (_alpha (mc + beta * Qabs dx_hat) dt)).
    destruct (IH p1 dx_hat) as (prev' & dxp' & E).
    exists prev', dxp'. rewrite E. reflexivity.
Qed.

(** The one-euro filter is causal: the samples it produces for a series
    are not changed by whatever follows the series. *)
Theorem one_euro_causal (series later : list Q) (fps strength : Q) :
  series <> [] ->
  exists out more,
    _one_euro series fps strength = Ok out /\
    _one_euro (series ++ later) fps strength = Ok (out ++ more) /\
    length more = length later.
Proof.
  intros Hne. destruct series as [|prev rest]; [congruence|].
  unfold _one_euro. cbn [app].
  set (dt := 1 / Smooth.py_max (1 # 1000) fps).
  set (mc := np_interp strength [(0, 5 # 2); (1, 2 # 5)]).
  set (beta := np_interp strength [(0, 0); (1, 1)]).
  destruct (one_euro_loop_app dt mc beta 1 rest later prev 0)
    as (prev' & dxp' & E).
  eexists _, _. split; [reflexivity|]. rewrite E. split; [reflexivity|].
  apply one_euro_loop_length.
Qed.

Lemma one_euro_causal_witness :
  exists out more,
    _one_euro [0; 1] 30 (3 # 5) = Ok out /\
    _one_euro ([0; 1] ++ [5; 7]) 30 (3 # 5) = Ok (out ++ more) /\
    length more = length [5; 7].
Proof.
  apply (one_euro_causal [0; 1] [5; 7] 30 (3 # 5)). discriminate.
Defined.

(** A filled sample never leaves the interval spanned by the two finite
    samples that enclose its gap. *)
Theorem interp_nans_gap_between
    (pre gap post : list fval) (a b : Q) (t : nat) :
  Forall (fun v => isfinite v = false) gap -> (t < length gap)%nat ->
  exists v,
    _interp_nans (pre ++ Fin a :: gap ++ Fin b :: post)
      !! (length pre + 1 + t)%nat = Some v /\
    (a <= b -> a <= v /\ v <= b) /\
    (b <= a -> b <= v /\ v <= a).
Proof.
  intros Hgap Ht. eexists. split; [apply interp_nans_gap; assumption|].
  cbv zeta.
  set (l := inject_Z (Z.of_nat (length pre))).
  set (r := inject_Z (Z.of_nat (length pre + 1 + length gap))).
  set (i := inject_Z (Z.of_nat (length pre + 1 + t))).
  assert (Hli : l < i) by (apply inject_nat_lt; lia).
  assert (Hir : i < r) by (apply inject_nat_lt; lia).
  assert (Hth : 0 <= (i - l) / (r - l) /\ (i - l) / (r - l) <= 1).
  { split.
    - apply Qle_shift_div_l; lra.
    - apply Qle_shift_div_r; lra. }
  destruct Hth as [Hth0 Hth1].
  assert (E : (b - a) / (r - l) * (i - l) + a
              == a + (b - a) * ((i - l) / (r - l))).
  { field. intros Hz. lra. }
  rewrite E. set (th := (i - l) / (r - l)) in *.
  split; intros Hab; split; nra.
Qed.

Lemma interp_nans_gap_between_witness :
  exists v,
    _interp_nans ([] ++ Fin 1 :: [NaN; NaN] ++ Fin 4 :: [])
      !! (length (@nil fval) + 1 + 0)%nat = Some v /\
    (1 <= 4 -> 1 <= v /\ v <= 4) /\
    (4 <= 1 -> 4 <= v /\ v <= 1).
Proof.
  apply (interp_nans_gap_between [] [NaN; NaN] [] 1 4 0).
  - repeat constructor.
  - cbn. lia.
Defined.



End SmoothExtras.

(** ** The smoothed track of every joint *)

Module TrackExtras.
Import Smooth SmoothFacts SmoothTracks.





Section tracks.
Variable f : list Q -> Z -> Z -> list Q.
Hypothesis f_length : forall series w p, length (f series w p) = length series.
Variables (fps : Q) (mode : string) (strength : Q).







End tracks.









End TrackExtras.

(** ** Gaps in the track of a joint *)

Module TrackFacts.
Import Smooth SmoothFacts SmoothTracks TrackExtras.




End TrackFacts.

(** ** 3D lifting placeholder *)

Module LiftExtras.
Import Lift3d.

Lemma lift_fold_spec (frame : gmap string (Q * Q * Q)) (joints : list string) :
  forall (lifted : gmap string (Q * Q * Q * Q)) (jid : string),
    fold_left (fun lifted jid =>
                 let '(x, y, c) := default (0, 0, 0) (frame !! jid) in
                 <[jid := (x, y, 0, c)]> lifted)
              joints lifted !! jid
    = if decide (jid ∈ joints)
      then Some (let '(x, y, c) := default (0, 0, 0) (frame !! jid) in
                 (x, y, 0, c))
      else lifted !! jid.
Proof.
  induction joints as [|k joints IH]; intros lifted jid; cbn [fold_left].
  - rewrite decide_False by apply not_elem_of_nil. reflexivity.
  - rewrite IH. destruct (decide (jid ∈ joints)) as [Hin|Hnin].
    + rewrite decide_True by (right; exact Hin). reflexivity.
    + destruct (decide (jid = k)) as [->|Hne].
      * rewrite decide_True by left.
        destruct (default (0, 0, 0) (frame !! k)) as [[x y] c].
        apply lookup_insert_eq.
      * rewrite decide_False by (intros Hc; apply elem_of_cons in Hc; tauto).
        destruct (default (0, 0, 0) (frame !! k)) as [[x y] c].
        apply lookup_insert_ne. congruence.
Qed.

(** The identity lifter returns one frame per input frame; each lifted
    frame holds exactly the listed joints, with x, y and confidence copied,
    z set to 0, and a joint missing from the input frame set to all
    zeros. *)
Theorem identity_lifter_spec
    (sequence : list (gmap string (Q * Q * Q))) (joint_ids : list string) :
  let out := _IdentityLifter_call sequence joint_ids in
  length out = length sequence /\
  forall fi frame, sequence !! fi = Some frame ->
    exists lifted,
      out !! fi = Some lifted /\
      (forall jid, jid ∉ joint_ids -> lifted !! jid = None) /\
      (forall jid x y c, jid ∈ joint_ids -> frame !! jid = Some (x, y, c) ->
         lifted !! jid = Some (x, y, 0, c)) /\
      (forall jid, jid ∈ joint_ids -> frame !! jid = None ->
         lifted !! jid = Some (0, 0, 0, 0)).
Proof.
  cbn zeta. unfold _IdentityLifter_call. split; [apply length_map|].
  intros fi frame Hfi. eexists. split.
  { rewrite list_lookup_fmap, Hfi. reflexivity. }
  split; [|split].
  - intros jid Hnin. rewrite lift_fold_spec, decide_False by exact Hnin.
    apply lookup_empty.
  - intros jid x y c Hin Hfr.
    rewrite lift_fold_spec, decide_True by exact Hin. rewrite Hfr. reflexivity.
  - intros jid Hin Hfr.
    rewrite lift_fold_spec, decide_True by exact Hin. rewrite Hfr. reflexivity.
Qed.

End LiftExtras.

(** ** Resize dimensions *)

Module DecoderExtras.
Import Decoder.

(** For a source of positive size and requested dimensions that are
    absent, zero or positive, [_coerce_resize_dims] returns positive
    dimensions: the requested pair when both are given, the source size
    when neither is, and otherwise the requested side with the other side
    scaled in proportion, to within half a pixel or raised to 1. *)
Theorem coerce_resize_dims_spec (src_w src_h : Z) (width height : option Z) :
  (0 < src_w)%Z -> (0 < src_h)%Z ->
  (forall w, width = Some w -> (0 <= w)%Z) ->
  (forall h, height = Some h -> (0 <= h)%Z) ->
  exists out_w out_h,
    _coerce_resize_dims src_w src_h width height = Ok (out_w, out_h) /\
    (1 <= out_w)%Z /\ (1 <= out_h)%Z /\
    (truthy width = true -> Some out_w = width) /\
    (truthy height = true -> Some out_h = height) /\
    (truthy width = false -> truthy height = false ->
     (out_w, out_h) = (src_w, src_h)) /\
    (truthy width = true -> truthy height = false ->
     out_h = 1%Z \/
     Qabs (inject_Z out_h - inject_Z src_h * (inject_Z out_w / inject_Z src_w))
       <= 1 # 2) /\
    (truthy height = true -> truthy width = false ->
     out_w = 1%Z \/
     Qabs (inject_Z out_w - inject_Z src_w * (inject_Z out_h / inject_Z src_h))
       <= 1 # 2).
Proof.
  intros Hsw Hsh Hw Hh. unfold _coerce_resize_dims.
  assert (Tw : truthy width = true -> exists w, width = Some w /\ (1 <= w)%Z).
  { destruct width as [w|]; [|discriminate]. cbn. intros E.
    exists w. split; [reflexivity|]. specialize (Hw w eq_refl).
    destruct (Z.eqb_spec w 0); [discriminate|lia]. }
  assert (Th : truthy height = true -> exists h, height = Some h /\ (1 <= h)%Z).
  { destruct height as [h|]; [|discriminate]. cbn. intros E.
    exists h. split; [reflexivity|]. specialize (Hh h eq_refl).
    destruct (Z.eqb_spec h 0); [discriminate|lia]. }
  destruct (truthy width) eqn:Ew; destruct (truthy height) eqn:Eh;
    cbn [andb negb].
  - destruct (Tw eq_refl) as (w & -> & Hw1).
    destruct (Th eq_refl) as (h & -> & Hh1).
    exists w, h. cbn [default from_option]. unfold id.
    repeat split; try lia; try discriminate.
  - destruct (Tw eq_refl) as (w & -> & Hw1).
    destruct (Z.eqb_spec src_w 0); [lia|].
    eexists _, _. split; [reflexivity|]. cbn [default from_option]. unfold id.
    repeat split; try lia; try discriminate.
    intros _ _.
    set (q := inject_Z src_h * (inject_Z w / inject_Z src_w)).
    destruct (Z.max_spec 1 (Normalizer.py_round q)) as [[_ ->]|[_ ->]].
    + right. apply NormalizerFacts.py_round_error.
    + left. reflexivity.
  - destruct (Th eq_refl) as (h & -> & Hh1).
    destruct (Z.eqb_spec src_h 0); [lia|].
    eexists _, _. split; [reflexivity|]. cbn [default from_option]. unfold id.
    repeat split; try lia; try discriminate.
    intros _ _.
    set (q := inject_Z src_w * (inject_Z h / inject_Z src_h)).
    destruct (Z.max_spec 1 (Normalizer.py_round q)) as [[_ ->]|[_ ->]].
    + right. apply NormalizerFacts.py_round_error.
    + left. reflexivity.
  - exists src_w, src_h.
    repeat split; try lia; try discriminate.
Qed.

Lemma coerce_resize_dims_spec_witness :
  exists out_w out_h,
    _coerce_resize_dims 1920 1080 (Some 640%Z) None = Ok (out_w, out_h) /\
    (1 <= out_w)%Z /\ (1 <= out_h)%Z /\ Some out_w = Some 640%Z.
Proof.
  destruct (coerce_resize_dims_spec 1920 1080 (Some 640%Z) None)
    as (out_w & out_h & Hok & H1 & H2 & Hw & _); try lia.
  - intros w [= <-]. lia.
  - intros h [=].
  - exists out_w, out_h. repeat split; try assumption. apply Hw. reflexivity.
Defined.

Lemma or_else_nonzero (o : option Q) (d : Q) : ~ d == 0 -> ~ or_else o d == 0.
Proof.
  intros Hd. unfold or_else, truthy_rate.
  destruct o as [q|]; [|exact Hd].
  destruct (Qeq_bool q 0) eqn:E; cbn [negb]; [exact Hd|].
  unfold default, from_option, id. intros Hq.
  apply Qeq_bool_neq in E. contradiction.
Qed.

Lemma source_fps_nonzero (cap_fps : Q) (target_fps : option Q) :
  ~ source_fps cap_fps target_fps == 0.
Proof.
  unfold source_fps. destruct (Qle_bool cap_fps 0) eqn:E.
  - apply or_else_nonzero. discriminate.
  - intros Hz. rewrite Hz in E. discriminate E.
Qed.

Lemma output_fps_nonzero (src_fps : Q) (target_fps : option Q) :
  ~ src_fps == 0 -> ~ output_fps src_fps target_fps == 0.
Proof.
  intros Hs. unfold output_fps.
  destruct (Qltb 0 (or_else target_fps src_fps)) eqn:E; [|exact Hs].
  apply Qltb_lt in E. lra.
Qed.

Lemma capture_loop_sublist {A B : Type} (convert : A -> B) (step : Q)
    (frames : list A) :
  forall idx next_capture,
    sublist (capture_loop convert step frames idx next_capture)
            (map convert frames).
Proof.
  induction frames as [|f rest IH]; intros idx nc; cbn [capture_loop map].
  - constructor.
  - destruct (Qle_bool _ _).
    + apply sublist_skip, IH.
    + apply sublist_cons, IH.
Qed.

Lemma capture_loop_all {A B : Type} (convert : A -> B) (step : Q)
    (frames : list A) :
  step <= 1 ->
  forall idx next_capture,
    next_capture - capture_eps <= inject_Z (idx + 1) ->
    capture_loop convert step frames idx next_capture = map convert frames.
Proof.
  intros Hstep. induction frames as [|f rest IH]; intros idx nc Hnc;
    cbn [capture_loop map]; [reflexivity|].
  apply Qle_bool_iff in Hnc. rewrite Hnc. f_equal.
  apply IH. apply Qle_bool_iff in Hnc.
  rewrite (inject_Z_plus (idx + 1) 1). change (inject_Z 1) with 1. lra.
Qed.

Lemma capture_loop_first {A B : Type} (convert : A -> B) (step : Q)
    (f : A) (rest : list A) :
  capture_loop convert step (f :: rest) 0 0 =
    convert f :: capture_loop convert step rest 1 (0 + step).
Proof. reflexivity. Qed.

(** Frame sampling of [read_video_frames].  Without a decoded frame the
    call raises [VideoDecodeError]; otherwise the first decoded frame is
    always kept, the kept frames are a sub-sequence of the decoded ones in
    their order, the reported rate is never zero (so that neither guarded
    division is skipped) and the duration is the number of kept frames
    divided by that rate. *)
Theorem read_video_frames_sampling {A B : Type} (convert : A -> B)
    (cap_fps : Q) (target_fps : option Q) :
  read_video_frames convert cap_fps [] target_fps = None /\
  forall f rest,
    exists kept fps,
      read_video_frames convert cap_fps (f :: rest) target_fps =
        Some (convert f :: kept, fps,
              inject_Z (Z.of_nat (S (length kept))) / fps) /\
      sublist kept (map convert rest) /\
      ~ fps == 0.
Proof.
  split; [reflexivity|]. intros f rest.
  unfold read_video_frames. cbv zeta.
  set (src_fps := source_fps cap_fps target_fps).
  set (fps := output_fps src_fps target_fps).
  set (step := frame_step src_fps fps).
  assert (Hfps : ~ fps == 0).
  { apply output_fps_nonzero, source_fps_nonzero. }
  rewrite capture_loop_first.
  exists (capture_loop convert step rest 1 (0 + step)), fps.
  split; [|split].
  - destruct (Qeq_bool fps 0) eqn:E.
    + apply Qeq_bool_iff in E. contradiction.
    + reflexivity.
  - apply capture_loop_sublist.
  - exact Hfps.
Qed.

(** [read_video_frames] drops frames only when a positive target rate
    below the rate of the source is requested: with no target, a zero or
    negative target, or a target at or above the source rate, every decoded
    frame is kept. *)
Theorem read_video_frames_keeps_all {A B : Type} (convert : A -> B)
    (cap_fps : Q) (frames : list A) (target_fps : option Q) :
  frames <> [] ->
  (forall t, target_fps = Some t -> 0 < t -> cap_fps <= t) ->
  exists fps duration,
    read_video_frames convert cap_fps frames target_fps =
      Some (map convert frames, fps, duration).
Proof.
  intros Hne Htarget.
  unfold read_video_frames. cbv zeta.
  set (src_fps := source_fps cap_fps target_fps).
  set (fps := output_fps src_fps target_fps).
  assert (Hsrc : ~ src_fps == 0) by apply source_fps_nonzero.
  assert (Hstep : frame_step src_fps fps <= 1).
  { unfold frame_step, Smooth.py_max.
    destruct (Qeq_bool fps 0); [lra|].
    destruct (Qltb 1 (src_fps / fps)) eqn:E; [|lra].
    exfalso. apply Qltb_lt in E.
    unfold fps, output_fps in E.
    destruct (Qltb 0 (or_else target_fps src_fps)) eqn:Epos.
    - apply Qltb_lt in Epos.
      assert (Hle : src_fps <= or_else target_fps src_fps).
      { unfold or_else in Epos |- *.
        destruct (truthy_rate target_fps) eqn:Et; [|lra].
        destruct target_fps as [t|]; [|discriminate Et].
        unfold default, from_option, id in Epos |- *.
        unfold src_fps, source_fps, or_else. rewrite Et.
        unfold default, from_option, id.
        destruct (Qle_bool cap_fps 0); [lra|].
        apply (Htarget t); [reflexivity | exact Epos]. }
      apply Qlt_not_le in E. apply E.
      apply Qle_shift_div_r; [exact Epos | lra].
    - apply Qlt_not_le in E. apply E.
      assert (Hone : src_fps / src_fps == 1) by (field; exact Hsrc).
      rewrite Hone. lra. }
  rewrite (capture_loop_all convert _ frames Hstep 0 0)
    by (vm_compute; discriminate).
  destruct frames as [|f rest]; [contradiction|].
  cbn [map]. eexists _, _. reflexivity.
Qed.

Definition sampling_frames : list nat := [10; 11; 12]%nat.

Lemma read_video_frames_keeps_all_witness :
  exists fps duration,
    read_video_frames S 24 sampling_frames (Some 30) =
      Some (map S sampling_frames, fps, duration).
Proof.
  apply (read_video_frames_keeps_all S 24 sampling_frames (Some 30)).
  - discriminate.
  - intros t Ht _. injection Ht as <-. vm_compute. discriminate.
Defined.

End DecoderExtras.

(** ** Joint-id tables *)

Module MappingExtras.
Import Mappings.
Local Open Scope Z_scope.

(** The layout produced by the counter of [_add_hand_section]: 21
    consecutive indices from [start]; the palm first, then the four
    segments of each of the five fingers in order. *)
Theorem add_hand_section_layout (start : Z) (side : string) :
  (forall k, is_Some (_add_hand_section start side !! k)
             <-> start <= k <= start + 20) /\
  _add_hand_section start side !! start = Some (side +:+ "Palm") /\
  (forall (f : nat) (finger : string) (seg : Z),
     FINGERS !! f = Some finger -> 1 <= seg <= 4 ->
     _add_hand_section start side !! (start + 1 + 4 * Z.of_nat f + (seg - 1))
       = Some (side +:+ finger +:+ py_str seg)).
Proof.
  split; [|split].
  - intros k. unfold _add_hand_section, FINGERS.
    change (seqZ 1 4) with [1; 2; 3; 4].
    cbn [fold_left fst].
    rewrite !lookup_insert_is_Some, lookup_singleton_is_Some. lia.
  - unfold _add_hand_section, FINGERS.
    change (seqZ 1 4) with [1; 2; 3; 4].
    cbn [fold_left fst].
    repeat (rewrite lookup_insert_ne by lia). apply lookup_singleton_eq.
  - intros f finger seg Hf Hseg.
    assert (Hs : seg = 1 \/ seg = 2 \/ seg = 3 \/ seg = 4) by lia.
    unfold _add_hand_section, FINGERS in *.
    change (seqZ 1 4) with [1; 2; 3; 4].
    cbn [fold_left fst].
    destruct f as [|[|[|[|[|f]]]]]; try discriminate; injection Hf as <-;
      destruct Hs as [->|[->|[-> | ->]]];
      repeat (rewrite lookup_insert; case_decide;
              [first [lia|reflexivity] | try lia]).
Qed.

Lemma add_hand_section_layout_witness :
  _add_hand_section 23 "left" !! (23 + 1 + 4 * Z.of_nat 1 + (3 - 1))
    = Some ("left" +:+ "Index" +:+ py_str 3).
Proof.
  apply (proj2 (proj2 (add_hand_section_layout 23 "left")) 1%nat "Index" 3).
  - reflexivity.
  - lia.
Defined.

Lemma wholebody_dom :
  dom MAP_VITPOSE_WHOLEBODY_133_TO_EDITOR = (list_to_set (seqZ 0 133) : gset Z).
Proof. eapply bool_decide_unpack. vm_compute. exact I. Qed.

Lemma wholebody_names_NoDup :
  NoDup (map_to_list MAP_VITPOSE_WHOLEBODY_133_TO_EDITOR).*2.
Proof. eapply bool_decide_unpack. vm_compute. exact I. Qed.

(** The whole-body table assembled from the body table, the feet, the two
    hand sections and the nine face sections has an entry for exactly the
    indices 0..132, gives every index a name of its own, and agrees with
    the 17-joint body table on the indices they share. *)
Theorem wholebody_table_complete :
  (forall k, is_Some (MAP_VITPOSE_WHOLEBODY_133_TO_EDITOR !! k)
             <-> 0 <= k < 133) /\
  (forall k1 k2 name,
     MAP_VITPOSE_WHOLEBODY_133_TO_EDITOR !! k1 = Some name ->
     MAP_VITPOSE_WHOLEBODY_133_TO_EDITOR !! k2 = Some name -> k1 = k2) /\
  (forall k name,
     MAP_VITPOSE_17_TO_EDITOR !! k = Some name ->
     MAP_VITPOSE_WHOLEBODY_133_TO_EDITOR !! k = Some name).
Proof.
  split; [|split].
  - intros k. rewrite <- elem_of_dom, wholebody_dom.
    rewrite elem_of_list_to_set, elem_of_seqZ. lia.
  - intros k1 k2 name H1 H2.
    apply elem_of_map_to_list in H1, H2.
    apply list_elem_of_lookup in H1, H2.
    destruct H1 as [i1 H1]. destruct H2 as [i2 H2].
    assert (E : i1 = i2).
    { apply (NoDup_lookup _ i1 i2 name wholebody_names_NoDup);
        rewrite list_lookup_fmap; [rewrite H1|rewrite H2]; reflexivity. }
    subst i2. rewrite H1 in H2. congruence.
  - apply map_subseteq_spec. eapply bool_decide_unpack. vm_compute. exact I.
Qed.

End MappingExtras.
